(** * Reconciliation of a stored model collection with a desired one

    A shallow embedding of [pkg/inventory/container/collection.go]
    (package [container]) and the properties of its reconciliation
    engine: the disposition map, the delete / add / update phases run
    through a transaction, and the reflect-based default shepherd.

    Modelling conventions.
    - A Go [error] is an [option] of a message, [None] being [nil].
    - A run-time panic (index out of range) is the [None] of an
      [option] result; a function that cannot panic returns its value.
    - [model.Model] values are Go pointers.  The iterators are taken
      to yield distinct objects, which the engine then reaches through
      one disposition each, so a record is modelled by its value and
      an in-place mutation by the new value of the same record.
    - Go's [range] over a map visits every entry once in an unspecified
      order; each [range] statement takes its order as a [Range].
    - Go's [int] counters are 64-bit and wrap around. *)

From Stdlib Require Import ZArith.
From stdpp Require Import gmap strings list fin_maps.

#[local] Set Warnings "-clear-no-such-hyp".

(** ** Go basics *)

Definition error := option string.

(** Two's complement wrap-around of a 64-bit [int]. *)
Definition wrap_int (z : Z) : Z := ((z + 2 ^ 63) mod 2 ^ 64 - 2 ^ 63)%Z.

(** [n++] on an [int]. *)
Definition incr (n : Z) : Z := wrap_int (n + 1)%Z.

(** ** Records and their fields (package [model]) *)

(** The dynamic value held by a field ([reflect.Value.Interface()]).
    Only values on which [reflect.DeepEqual] is plain equality are
    covered: floating-point values (a NaN is not [DeepEqual] to
    itself), funcs, pointers and composite values are left out. *)
Inductive value : Type :=
  | VNil
  | VBool (b : bool)
  | VInt (n : Z)
  | VString (s : string).

#[global] Instance value_eq_dec : EqDecision value.
Proof. solve_decision. Defined.

Definition DeepEqual (a b : value) : bool := bool_decide (a = b).

(** Modelled from the spec: [model.Field] is declared outside this file.
    Per the field introspector contract a field exposes a settable
    value, an is-primary-key flag ([Pk()]), an is-auto-incremented flag
    ([Incremented()]) and its struct tag, looked up by key. *)
Record Field : Type := mkField {
  Name : string;
  Tag : list (string * string);
  Value : value;
  FieldPk : bool;
  Incremented : bool
}.

#[global] Instance Field_eq_dec : EqDecision Field.
Proof. solve_decision. Defined.

(** [reflect.StructTag.Lookup]: the value of the first pair with that key. *)
Fixpoint Tag_Lookup (key : string) (tag : list (string * string)) : option string :=
  match tag with
  | [] => None
  | (k, v) :: rest => if bool_decide (k = key) then Some v else Tag_Lookup key rest
  end.

(** [fA.Value.Set(v)]: the same field holding [v].  The value is
    taken to be assignable to the field's type, as it is between two
    records of one type; [Set] panics otherwise, which is not covered. *)
Definition Value_Set (f : Field) (v : value) : Field :=
  mkField (Name f) (Tag f) v (FieldPk f) (Incremented f).

(** Modelled from the spec: [model.Model] and [model.Table.Fields] are
    declared outside this file.  A record has a primary-key string
    ([Pk()]) and an ordered field list; [Table{}.Fields(m)] returns
    that list together with an error. *)
Record Model : Type := mkModel {
  Pk : string;
  Fields : list Field;
  FieldsErr : error
}.

#[global] Instance Model_eq_dec : EqDecision Model.
Proof. solve_decision. Defined.

Definition Table_Fields (m : Model) : list Field * error := (Fields m, FieldsErr m).

(** The record [m] after its fields were set in place.  [Pk()] is
    taken not to depend on the values a merge may set. *)
Definition with_Fields (m : Model) (fs : list Field) : Model :=
  mkModel (Pk m) fs (FieldsErr m).

(** ** Model shepherd *)

(** [type Shepherd interface].  The methods are taken to be functions
    of their arguments; either may panic ([None]); [Update] returns the
    stored record as mutated. *)
Record Shepherd : Type := mkShepherd {
  Equals : Model → Model → option bool;
  Update : Model → Model → option Model
}.

(** ** Default (reflect-based) shepherd *)

Definition DefaultShepherd_ignored (f : Field) : bool :=
  if FieldPk f || Incremented f then true
  else match Tag_Lookup "eq" (Tag f) with
       | Some tag => if bool_decide (tag = "-") then true else false
       | None => false
       end.

(** The loop [for i := 0; i < len(fieldsA); i++] of [Equals], with [n]
    iterations left at index [i]. *)
Fixpoint Equals_loop (fieldsA fieldsB : list Field) (n i : nat) : option bool :=
  match n with
  | O => Some true
  | S n' =>
      match fieldsA !! i, fieldsB !! i with
      | Some fA, Some fB =>
          if DefaultShepherd_ignored fA then Equals_loop fieldsA fieldsB n' (S i)
          else if DeepEqual (Value fA) (Value fB)
               then Equals_loop fieldsA fieldsB n' (S i)
               else Some false
      | _, _ => None
      end
  end.

Definition DefaultShepherd_Equals (mA mB : Model) : option bool :=
  let fieldsA := (Table_Fields mA).1 in
  let fieldsB := (Table_Fields mB).1 in
  Equals_loop fieldsA fieldsB (length fieldsA) 0.

(** The loop of [Update]; [fieldsA] is the state of the stored record's
    fields, each [Set] replacing the value at index [i]. *)
Fixpoint Update_loop (fieldsA fieldsB : list Field) (n i : nat) : option (list Field) :=
  match n with
  | O => Some fieldsA
  | S n' =>
      match fieldsA !! i, fieldsB !! i with
      | Some fA, Some fB =>
          if DefaultShepherd_ignored fA then Update_loop fieldsA fieldsB n' (S i)
          else Update_loop (<[i := Value_Set fA (Value fB)]> fieldsA) fieldsB n' (S i)
      | _, _ => None
      end
  end.

Definition DefaultShepherd_Update (mA mB : Model) : option Model :=
  let fieldsA := (Table_Fields mA).1 in
  let fieldsB := (Table_Fields mB).1 in
  with_Fields mA <$> Update_loop fieldsA fieldsB (length fieldsA) 0.

Definition DefaultShepherd : Shepherd :=
  mkShepherd DefaultShepherd_Equals DefaultShepherd_Update.

(** ** Dispositions *)

Record Disposition : Type := mkDisposition {
  stored : option Model;
  desired : option Model
}.

#[global] Instance Disposition_eq_dec : EqDecision Disposition.
Proof. solve_decision. Defined.

Abbreviation Dispositions := (gmap string Disposition).

(** First loop of [dispositions]: one step per record of [r.Stored]. *)
Definition put_stored (mp : Dispositions) (m : Model) : Dispositions :=
  <[Pk m := mkDisposition (Some m) None]> mp.

(** Second loop of [dispositions]: one step per desired record.  The
    assignment [dpn.desired = m] through the pointer held by the map
    is the replacement of the entry, its [stored] kept. *)
Definition put_desired (mp : Dispositions) (m : Model) : Dispositions :=
  match mp !! Pk m with
  | None => <[Pk m := mkDisposition None (Some m)]> mp
  | Some dpn => <[Pk m := mkDisposition (stored dpn) (Some m)]> mp
  end.

Definition build_dispositions (Stored desired : list Model) : Dispositions :=
  foldl put_desired (foldl put_stored ∅ Stored) desired.

(** ** The transaction *)

(** A call made on the transaction, with the record passed. *)
Inductive TxCall : Type :=
  | TxInsert (m : Model)
  | TxUpdate (m : Model)
  | TxDelete (m : Model).

#[global] Instance TxCall_eq_dec : EqDecision TxCall.
Proof. solve_decision. Defined.

(** Modelled from the spec: [model.Tx] is declared outside this file.
    Per the transaction contract it exposes [Insert], [Update] and
    [Delete], each applied at once to the transaction's state [St] and
    reporting success or failure. *)
Record TxOps (St : Type) : Type := mkTxOps {
  Tx_Insert : Model → St → St * error;
  Tx_Update : Model → St → St * error;
  Tx_Delete : Model → St → St * error
}.
Arguments mkTxOps {St} _ _ _.
Arguments Tx_Insert {St} _ _ _.
Arguments Tx_Update {St} _ _ _.
Arguments Tx_Delete {St} _ _ _.

Definition Tx_apply {St : Type} (tx : TxOps St) (c : TxCall) : St → St * error :=
  match c with
  | TxInsert m => Tx_Insert tx m
  | TxUpdate m => Tx_Update tx m
  | TxDelete m => Tx_Delete tx m
  end.

(** ** Model collection *)

Record Collection (St : Type) : Type := mkCollection {
  Stored : list Model;          (* what is left of the stored iterator *)
  Tx : St;
  OptShepherd : option Shepherd;
  Added : Z;
  Updated : Z;
  Deleted : Z
}.
Arguments mkCollection {St} _ _ _ _ _ _.
Arguments Stored {St} _.
Arguments Tx {St} _.
Arguments OptShepherd {St} _.
Arguments Added {St} _.
Arguments Updated {St} _.
Arguments Deleted {St} _.

(** The order in which one [range] statement visits a map. *)
Definition Range : Type := Dispositions → list (string * Disposition).

(** Every entry is visited exactly once. *)
Definition Range_ok (rng : Range) : Prop := ∀ mp, rng mp ≡ₚ map_to_list mp.

(** A method of [*Collection]: from the receiver's state to the
    transaction calls made, the receiver's new state and the value
    returned, [None] when the method panicked. *)
Definition M (St A : Type) : Type :=
  Collection St → list TxCall * Collection St * option A.

#[global] Instance M_ret {St : Type} : MRet (M St) := λ A a r, ([], r, Some a).

#[global] Instance M_bind {St : Type} : MBind (M St) := λ A B f m r,
  match m r with
  | (t1, r1, Some a) => let '(t2, r2, b) := f a r1 in (t1 ++ t2, r2, b)
  | (t1, r1, None) => (t1, r1, None)
  end.

Section Engine.
Context {St : Type} (tx : TxOps St).

(** A shepherd call, which may panic. *)
Definition shepherd_call {A : Type} (o : option A) : M St A := λ r, ([], r, o).

(** [r.Tx.Insert], [r.Tx.Update], [r.Tx.Delete]. *)
Definition Tx_call (c : TxCall) : M St error := λ r,
  let '(s, err) := Tx_apply tx c (Tx r) in
  ([c], mkCollection (Stored r) s (OptShepherd r) (Added r) (Updated r) (Deleted r),
   Some err).

(** [r.Added++], [r.Updated++], [r.Deleted++]. *)
Definition Added_incr : M St unit := λ r,
  ([], mkCollection (Stored r) (Tx r) (OptShepherd r) (incr (Added r)) (Updated r) (Deleted r),
   Some tt).
Definition Updated_incr : M St unit := λ r,
  ([], mkCollection (Stored r) (Tx r) (OptShepherd r) (Added r) (incr (Updated r)) (Deleted r),
   Some tt).
Definition Deleted_incr : M St unit := λ r,
  ([], mkCollection (Stored r) (Tx r) (OptShepherd r) (Added r) (Updated r) (incr (Deleted r)),
   Some tt).

(** Build the dispositions.  Both iterators are drained. *)
Definition Collection_dispositions (desired : list Model) : M St Dispositions := λ r,
  ([], mkCollection [] (Tx r) (OptShepherd r) (Added r) (Updated r) (Deleted r),
   Some (build_dispositions (Stored r) desired)).

(** Add models included in desired but not stored. *)
Fixpoint add_loop (l : list (string * Disposition)) : M St error :=
  match l with
  | [] => mret None
  | (_, dpn) :: l' =>
      match desired dpn, stored dpn with
      | Some d, None =>
          err ← Tx_call (TxInsert d);
          match err with
          | None => Added_incr ;; add_loop l'
          | Some _ => mret err
          end
      | _, _ => add_loop l'
      end
  end.

Definition Collection_add (rng : Range) (dispositions : Dispositions) : M St error :=
  add_loop (rng dispositions).

(** Update models. *)
Fixpoint update_loop (shepherd : Shepherd) (l : list (string * Disposition)) : M St error :=
  match l with
  | [] => mret None
  | (_, dpn) :: l' =>
      match desired dpn, stored dpn with
      | Some d, Some s =>
          eq ← shepherd_call (Equals shepherd d s);
          if (eq : bool) then update_loop shepherd l'
          else
            s' ← shepherd_call (Update shepherd s d);
            err ← Tx_call (TxUpdate s');
            match err with
            | None => Updated_incr ;; update_loop shepherd l'
            | Some _ => mret err
            end
      | _, _ => update_loop shepherd l'
      end
  end.

Definition Collection_update (rng : Range) (dispositions : Dispositions) : M St error := λ r,
  let shepherd := default DefaultShepherd (OptShepherd r) in
  update_loop shepherd (rng dispositions) r.

(** Delete stored models not included in the desired. *)
Fixpoint delete_loop (l : list (string * Disposition)) : M St error :=
  match l with
  | [] => mret None
  | (_, dpn) :: l' =>
      match stored dpn, desired dpn with
      | Some s, None =>
          err ← Tx_call (TxDelete s);
          match err with
          | None => Deleted_incr ;; delete_loop l'
          | Some _ => mret err
          end
      | _, _ => delete_loop l'
      end
  end.

Definition Collection_delete (rng : Range) (dispositions : Dispositions) : M St error :=
  delete_loop (rng dispositions).

Definition Collection_Add (rng : Range) (desired : list Model) : M St error :=
  mp ← Collection_dispositions desired; Collection_add rng mp.

Definition Collection_Update (rng : Range) (desired : list Model) : M St error :=
  mp ← Collection_dispositions desired; Collection_update rng mp.

Definition Collection_Delete (rng : Range) (desired : list Model) : M St error :=
  mp ← Collection_dispositions desired; Collection_delete rng mp.

(** Reconcile the collection: ensure the stored collection is as
    desired.  The three [range] statements each have their order. *)
Definition Collection_Reconcile (rd ra ru : Range) (desired : list Model) : M St error :=
  mp ← Collection_dispositions desired;
  err ← Collection_delete rd mp;
  match err with
  | Some _ => mret err
  | None =>
      err ← Collection_add ra mp;
      match err with
      | Some _ => mret err
      | None =>
          err ← Collection_update ru mp;
          match err with
          | Some _ => mret err
          | None => mret err
          end
      end
  end.

End Engine.

(** ** Transactions used to run the engine *)

(** A transaction that persists faithfully: a store of records by
    primary key, in which [Insert] and [Update] file the record under
    its key and [Delete] removes that key, every operation succeeding. *)
Definition MemTx : TxOps (gmap string Model) :=
  mkTxOps (λ m st, (<[Pk m := m]> st, None))
          (λ m st, (<[Pk m := m]> st, None))
          (λ m st, (delete (Pk m) st, None)).

(** A transaction that accepts a given number of operations and fails
    every later one. *)
Definition quota_op (m : Model) (n : nat) : nat * error :=
  match n with
  | O => (O, Some "quota exceeded"%string)
  | S n' => (n', None)
  end.

Definition QuotaTx : TxOps nat := mkTxOps quota_op quota_op quota_op.

(** The stored sequence read back from a store, in the store's order. *)
Definition stored_of (st : gmap string Model) : list Model := (map_to_list st).*2.

(** A record with its key field and one plain field. *)
Definition rec1 (pk : string) (v : Z) : Model :=
  mkModel pk [mkField "ID" [("sql", "pk")] (VString pk) true false;
              mkField "Rev" [] (VInt v) false false] None.

(** * Notions used to state the properties *)

(** What one iteration of [Equals] decides for a pair of fields. *)
Definition fields_agree (fA fB : Field) : bool :=
  DefaultShepherd_ignored fA || DeepEqual (Value fA) (Value fB).

(** What one iteration of [Update] leaves in the stored field. *)
Definition merge_field (fA fB : Field) : Field :=
  if DefaultShepherd_ignored fA then fA else Value_Set fA (Value fB).

(** Two records of one Go type: the same fields in the same order,
    with the same names, tags and flags. *)
Definition same_field_type (fA fB : Field) : bool :=
  bool_decide (Name fA = Name fB) && bool_decide (Tag fA = Tag fB)
  && bool_decide (FieldPk fA = FieldPk fB)
  && bool_decide (Incremented fA = Incremented fB).

Fixpoint same_fields_type (fieldsA fieldsB : list Field) : bool :=
  match fieldsA, fieldsB with
  | [], [] => true
  | fA :: restA, fB :: restB => same_field_type fA fB && same_fields_type restA restB
  | _, _ => false
  end.

Definition same_type (mA mB : Model) : bool :=
  same_fields_type (Fields mA) (Fields mB).

(** The closed form of the comparison and of the merge. *)
Definition Equals_closed (fieldsA fieldsB : list Field) : option bool :=
  if forallb (λ p, fields_agree p.1 p.2) (zip fieldsA fieldsB)
  then (if decide (length fieldsA ≤ length fieldsB) then Some true else None)
  else Some false.

Definition Update_closed (fieldsA fieldsB : list Field) : option (list Field) :=
  if decide (length fieldsA ≤ length fieldsB)
  then Some (zip_with merge_field fieldsA fieldsB)
  else None.

(** Records of one and of two plain fields under the same key. *)
Definition short_rec : Model :=
  mkModel "a" [mkField "Rev" [] (VInt 1) false false] None.

Definition long_rec : Model :=
  mkModel "a" [mkField "Rev" [] (VInt 1) false false;
               mkField "Note" [] (VString "x") false false] None.

(** A record whose introspection failed. *)
Definition opaque_rec : Model := mkModel "a" [] (Some "must be a pointer to a struct").

(** The last record of a sequence with primary key [k]. *)
Definition last_with_Pk (k : string) (l : list Model) : option Model :=
  last (filter (λ m, Pk m = k) l).

(** The primary keys a sequence yields. *)
Definition keys_of (l : list Model) : gset string := list_to_set (Pk <$> l).

(** The entry pairing a stored and a desired record, if either is there. *)
Definition pair_up (s d : option Model) : option Disposition :=
  match s, d with
  | None, None => None
  | _, _ => Some (mkDisposition s d)
  end.

(** The tests made on an entry by [add], [update] and [delete]. *)
Definition to_add (dpn : Disposition) : bool :=
  bool_decide (desired dpn ≠ None) && bool_decide (stored dpn = None).

Definition to_update (dpn : Disposition) : bool :=
  negb (bool_decide (desired dpn = None) || bool_decide (stored dpn = None)).

Definition to_delete (dpn : Disposition) : bool :=
  bool_decide (stored dpn ≠ None) && bool_decide (desired dpn = None).

(** The keys a phase acts on. *)
Definition keys_where (test : Disposition → bool) (mp : Dispositions) : gset string :=
  dom (filter (λ kv, test kv.2 = true) mp).

Definition add_set : Dispositions → gset string := keys_where to_add.
Definition update_set : Dispositions → gset string := keys_where to_update.
Definition delete_set : Dispositions → gset string := keys_where to_delete.

(** Running a list of calls on the transaction, all of them succeeding. *)
Fixpoint Tx_succeed {St : Type} (tx : TxOps St) (t : list TxCall) (s : St) : option St :=
  match t with
  | [] => Some s
  | c :: t' =>
      match Tx_apply tx c s with
      | (s', None) => Tx_succeed tx t' s'
      | (_, Some _) => None
      end
  end.

(** The three phases and the counter each of them keeps. *)
Inductive Phase : Type := PhaseAdd | PhaseUpdate | PhaseDelete.

#[global] Instance Phase_eq_dec : EqDecision Phase.
Proof. solve_decision. Defined.

Definition run_phase {St : Type} (tx : TxOps St) (p : Phase)
    (l : list (string * Disposition)) (r : Collection St)
    : list TxCall * Collection St * option error :=
  match p with
  | PhaseAdd => add_loop tx l r
  | PhaseUpdate => update_loop tx (default DefaultShepherd (OptShepherd r)) l r
  | PhaseDelete => delete_loop tx l r
  end.

Definition counter {St : Type} (p : Phase) (r : Collection St) : Z :=
  match p with
  | PhaseAdd => Added r
  | PhaseUpdate => Updated r
  | PhaseDelete => Deleted r
  end.

Definition is_call_of (p : Phase) (c : TxCall) : bool :=
  match p, c with
  | PhaseAdd, TxInsert _ | PhaseUpdate, TxUpdate _ | PhaseDelete, TxDelete _ => true
  | _, _ => false
  end.

(** The receiver with a new transaction state and a new counter of phase [p]. *)
Definition after_call {St : Type} (p : Phase) (s : St) (r : Collection St) : Collection St :=
  match p with
  | PhaseAdd =>
      mkCollection (Stored r) s (OptShepherd r) (incr (Added r)) (Updated r) (Deleted r)
  | PhaseUpdate =>
      mkCollection (Stored r) s (OptShepherd r) (Added r) (incr (Updated r)) (Deleted r)
  | PhaseDelete =>
      mkCollection (Stored r) s (OptShepherd r) (Added r) (Updated r) (incr (Deleted r))
  end.

(** The receiver with a new transaction state only. *)
Definition with_Tx {St : Type} (s : St) (r : Collection St) : Collection St :=
  mkCollection (Stored r) s (OptShepherd r) (Added r) (Updated r) (Deleted r).

(** What a phase does with one entry: nothing ([Some None]), one
    transaction call, or a panic of the shepherd ([None]). *)
Definition entry_action (shepherd : Shepherd) (p : Phase) (dpn : Disposition)
    : option (option TxCall) :=
  match p, stored dpn, desired dpn with
  | PhaseAdd, None, Some d => Some (Some (TxInsert d))
  | PhaseDelete, Some s, None => Some (Some (TxDelete s))
  | PhaseUpdate, Some s, Some d =>
      match Equals shepherd d s with
      | None => None
      | Some true => Some None
      | Some false => (λ s', Some (TxUpdate s')) <$> Update shepherd s d
      end
  | _, _, _ => Some None
  end.

(** The three loops seen as one, over the action of each entry. *)
Fixpoint phase_loop {St : Type} (tx : TxOps St) (shepherd : Shepherd) (p : Phase)
    (l : list (string * Disposition)) (r : Collection St)
    : list TxCall * Collection St * option error :=
  match l with
  | [] => ([], r, Some None)
  | (_, dpn) :: l' =>
      match entry_action shepherd p dpn with
      | None => ([], r, None)
      | Some None => phase_loop tx shepherd p l' r
      | Some (Some c) =>
          match Tx_apply tx c (Tx r) with
          | (s, None) =>
              let '(t, r', o) := phase_loop tx shepherd p l' (after_call p s r) in
              (c :: t, r', o)
          | (s, Some e) => ([c], with_Tx s r, Some (Some e))
          end
      end
  end.

(** A shepherd for desired records that list only the leading fields
    they care about: the first record matches the second when it starts
    with the second's fields; the merge overlays them. *)
Definition PrefixShepherd : Shepherd :=
  mkShepherd
    (λ mA mB, Some (bool_decide (take (length (Fields mB)) (Fields mA) = Fields mB)))
    (λ mA mB, Some (with_Fields mA (Fields mB ++ drop (length (Fields mB)) (Fields mA)))).

(** The reading of the update phase in which [Equals] is given the
    stored record first: a stored and a desired record of one key that
    are equal in that order cost no transaction call. *)
Definition skips_when_Equals_stored_desired : Prop :=
  ∀ (shepherd : Shepherd) (s d : Model) (st : gmap string Model),
    Pk s = Pk d →
    Equals shepherd s d = Some true →
    (Collection_Update MemTx map_to_list [d]
       (mkCollection [s] st (Some shepherd) 0 0 0)).1.1 = [].

(** Every record of a store is filed under its own primary key. *)
Definition store_ok (st : gmap string Model) : Prop :=
  map_Forall (λ k m, Pk m = k) st.

(** The record a transaction call carries, and what a successful call
    of [MemTx] leaves under that record's key. *)
Definition call_record (c : TxCall) : Model :=
  match c with TxInsert m | TxUpdate m | TxDelete m => m end.

Definition call_effect (a : option TxCall) (x : option Model) : option Model :=
  match a with
  | Some (TxDelete _) => None
  | Some (TxInsert m) | Some (TxUpdate m) => Some m
  | None => x
  end.

(** The shepherd settles a stored record [s] against a desired record
    [d]: they compare equal, desired first, or they do not and the
    merge yields a record with the key of [s] that does. *)
Definition settles (shepherd : Shepherd) (s d : Model) : Prop :=
  Equals shepherd d s = Some true ∨
  (Equals shepherd d s = Some false ∧
   ∃ s', Update shepherd s d = Some s' ∧ Pk s' = Pk s ∧ Equals shepherd d s' = Some true).

(** What a faithful store holds under a key after reconciliation, from
    what it held ([s]) and the desired record of that key ([d]). *)
Definition reconciled (shepherd : Shepherd) (s d : option Model) : option Model :=
  match d, s with
  | None, _ => None
  | Some d, None => Some d
  | Some d, Some s =>
      match Equals shepherd d s with
      | Some true => Some s
      | _ => Update shepherd s d
      end
  end.

(** A shepherd that never finds two records equal and merges nothing. *)
Definition RestlessShepherd : Shepherd :=
  mkShepherd (λ _ _, Some false) (λ mA _, Some mA).

(** Two runs of [Reconcile] in succession on a faithful store, the
    stored sequence of each run read back from the store: the second
    run leaves the store and the three counters as the first left them. *)
Definition second_run_changes_nothing (shepherd_opt : option Shepherd)
    (st : gmap string Model) (desired_seq : list Model) : Prop :=
  let '(_, r1, _) :=
    Collection_Reconcile MemTx map_to_list map_to_list map_to_list desired_seq
      (mkCollection (stored_of st) st shepherd_opt 0 0 0) in
  let '(_, r2, _) :=
    Collection_Reconcile MemTx map_to_list map_to_list map_to_list desired_seq
      (mkCollection (stored_of (Tx r1)) (Tx r1) shepherd_opt
                    (Added r1) (Updated r1) (Deleted r1)) in
  Tx r2 = Tx r1 ∧ Added r2 = Added r1 ∧ Updated r2 = Updated r1 ∧ Deleted r2 = Deleted r1.

(** A store of three records and a desired sequence that drops the
    first, keeps the second, changes the third and brings a fourth. *)
Definition store3 : gmap string Model :=
  list_to_map [("1", rec1 "1" 10); ("2", rec1 "2" 20); ("3", rec1 "3" 30)].

Definition desired3 : list Model := [rec1 "2" 20; rec1 "3" 31; rec1 "4" 40].

(** The calls a phase makes over a list of entries when no call fails
    and the shepherd does not panic. *)
Definition planned_calls (shepherd : Shepherd) (p : Phase)
    (l : list (string * Disposition)) : list TxCall :=
  omap (λ kd, default None (entry_action shepherd p kd.2)) l.

(** The receiver once [dispositions] has drained its stored iterator. *)
Definition drained {St : Type} (r : Collection St) : Collection St :=
  mkCollection [] (Tx r) (OptShepherd r) (Added r) (Updated r) (Deleted r).

(** * Properties of the default shepherd *)

Lemma DeepEqual_true a b : DeepEqual a b = true ↔ a = b.
Proof. unfold DeepEqual. apply bool_decide_eq_true. Qed.

Lemma DeepEqual_false a b : DeepEqual a b = false ↔ a ≠ b.
Proof. unfold DeepEqual. apply bool_decide_eq_false. Qed.

Lemma ignored_Value_Set f v :
  DefaultShepherd_ignored (Value_Set f v) = DefaultShepherd_ignored f.
Proof. reflexivity. Qed.

Lemma ignored_iff f :
  DefaultShepherd_ignored f = true ↔
  FieldPk f = true ∨ Incremented f = true ∨ Tag_Lookup "eq" (Tag f) = Some "-"%string.
Proof.
  unfold DefaultShepherd_ignored.
  destruct (FieldPk f), (Incremented f); simpl; try (split; [auto | done]).
  destruct (Tag_Lookup "eq" (Tag f)) as [tag|].
  - case_bool_decide; subst; split; try done; auto.
    intros [?|[?|?]]; congruence.
  - split; [done | intros [?|[?|?]]; congruence].
Qed.

Lemma fields_agree_true fA fB :
  fields_agree fA fB = true ↔
  (DefaultShepherd_ignored fA = false → Value fA = Value fB).
Proof.
  unfold fields_agree. destruct (DefaultShepherd_ignored fA); simpl.
  - split; [done | auto].
  - rewrite DeepEqual_true. split; auto.
Qed.

Lemma same_fields_type_length fieldsA fieldsB :
  same_fields_type fieldsA fieldsB = true → length fieldsA = length fieldsB.
Proof.
  revert fieldsB. induction fieldsA as [|fA restA IH]; intros [|fB restB]; simpl; try done.
  intros [_ H]%andb_prop. f_equal. by apply IH.
Qed.

Lemma same_fields_type_lookup fieldsA fieldsB i fA fB :
  same_fields_type fieldsA fieldsB = true →
  fieldsA !! i = Some fA → fieldsB !! i = Some fB → same_field_type fA fB = true.
Proof.
  revert fieldsB i. induction fieldsA as [|gA restA IH]; intros [|gB restB] i; simpl; try done.
  intros [H1 H2]%andb_prop. destruct i as [|i]; simpl.
  - by intros [= <-] [= <-].
  - by apply IH.
Qed.

Lemma same_field_type_ignored fA fB :
  same_field_type fA fB = true →
  DefaultShepherd_ignored fA = DefaultShepherd_ignored fB.
Proof.
  unfold same_field_type, DefaultShepherd_ignored.
  rewrite !andb_true_iff, !bool_decide_eq_true.
  by intros [[[_ ->] ->] ->].
Qed.

(** ** The comparison loop *)

Lemma Equals_loop_true fieldsA fieldsB n i :
  Equals_loop fieldsA fieldsB n i = Some true ↔
  ∀ j, i ≤ j < i + n →
    ∃ fA fB, fieldsA !! j = Some fA ∧ fieldsB !! j = Some fB ∧ fields_agree fA fB = true.
Proof.
  revert i. induction n as [|n IH]; intros i; simpl.
  - split; [intros _ j ?; lia | done].
  - destruct (fieldsA !! i) as [fA|] eqn:HA; [destruct (fieldsB !! i) as [fB|] eqn:HB|].
    + destruct (fields_agree fA fB) eqn:Hag.
      * assert (Equals_loop fieldsA fieldsB n (S i) =
                (if DefaultShepherd_ignored fA then Equals_loop fieldsA fieldsB n (S i)
                 else if DeepEqual (Value fA) (Value fB)
                      then Equals_loop fieldsA fieldsB n (S i) else Some false)) as <-.
        { unfold fields_agree in Hag.
          destruct (DefaultShepherd_ignored fA); [done|]. simpl in Hag. by rewrite Hag. }
        rewrite IH. split.
        -- intros H j Hj. destruct (decide (j = i)) as [->|]; [eauto|]. apply H. lia.
        -- intros H j Hj. apply H. lia.
      * assert (Hag' := Hag). unfold fields_agree in Hag'.
        apply orb_false_iff in Hag' as [-> ->].
        split; [done|]. intros H. destruct (H i) as (gA & gB & ? & ? & Hg); [lia|].
        simplify_eq. congruence.
    + split; [done|]. intros H. destruct (H i) as (gA & gB & ? & ? & _); [lia|]. congruence.
    + split; [done|]. intros H. destruct (H i) as (gA & gB & ? & ? & _); [lia|]. congruence.
Qed.

Lemma Equals_loop_false fieldsA fieldsB n i j fA fB :
  i ≤ j < i + n →
  fieldsA !! j = Some fA → fieldsB !! j = Some fB → fields_agree fA fB = false →
  (∀ k gA gB, i ≤ k < j → fieldsA !! k = Some gA → fieldsB !! k = Some gB →
              fields_agree gA gB = true) →
  Equals_loop fieldsA fieldsB n i = Some false.
Proof.
  revert i. induction n as [|n IH]; intros i Hj HA HB Hne Hbefore; [lia|]. simpl.
  destruct (decide (j = i)) as [->|Hji].
  - rewrite HA, HB. unfold fields_agree in Hne. by apply orb_false_iff in Hne as [-> ->].
  - assert (is_Some (fieldsA !! i)) as [gA HgA].
    { apply lookup_lt_is_Some. apply lookup_lt_Some in HA. lia. }
    assert (is_Some (fieldsB !! i)) as [gB HgB].
    { apply lookup_lt_is_Some. apply lookup_lt_Some in HB. lia. }
    rewrite HgA, HgB.
    assert (fields_agree gA gB = true) as Hg by (apply (Hbefore i); [lia|done..]).
    assert (Equals_loop fieldsA fieldsB n (S i) = Some false) as Hrec.
    { apply IH; try done; [lia|]. intros k ?????. apply (Hbefore k); [lia|done..]. }
    unfold fields_agree in Hg. destruct (DefaultShepherd_ignored gA); [done|].
    simpl in Hg. by rewrite Hg.
Qed.

Lemma DefaultShepherd_Equals_true mA mB :
  DefaultShepherd_Equals mA mB = Some true ↔
  length (Fields mA) ≤ length (Fields mB) ∧
  ∀ i fA fB, Fields mA !! i = Some fA → Fields mB !! i = Some fB →
             fields_agree fA fB = true.
Proof.
  unfold DefaultShepherd_Equals, Table_Fields. simpl. rewrite Equals_loop_true. split.
  - intros H. split.
    + destruct (Fields mA) as [|f0 rest] eqn:E; [simpl; lia|]. rewrite <- E in *.
      destruct (H (length (Fields mA) - 1)) as (fA & fB & _ & HB & _).
      { rewrite E. simpl. lia. }
      apply lookup_lt_Some in HB. lia.
    + intros i fA fB HA HB. destruct (H i) as (gA & gB & ? & ? & ?).
      { apply lookup_lt_Some in HA. lia. }
      by simplify_eq.
  - intros [Hlen H] j Hj.
    assert (is_Some (Fields mA !! j)) as [fA HA] by (apply lookup_lt_is_Some; lia).
    assert (is_Some (Fields mB !! j)) as [fB HB] by (apply lookup_lt_is_Some; lia).
    exists fA, fB. eauto.
Qed.

Lemma DefaultShepherd_Equals_false mA mB i fA fB :
  Fields mA !! i = Some fA → Fields mB !! i = Some fB → fields_agree fA fB = false →
  (∀ k gA gB, k < i → Fields mA !! k = Some gA → Fields mB !! k = Some gB →
              fields_agree gA gB = true) →
  DefaultShepherd_Equals mA mB = Some false.
Proof.
  intros HA HB Hne Hbefore. unfold DefaultShepherd_Equals, Table_Fields. simpl.
  apply (Equals_loop_false _ _ _ 0 i fA fB); try done.
  - apply lookup_lt_Some in HA. lia.
  - intros k gA gB ?. apply Hbefore. lia.
Qed.

Lemma DefaultShepherd_Equals_refl m : DefaultShepherd_Equals m m = Some true.
Proof.
  apply DefaultShepherd_Equals_true. split; [done|].
  intros i fA fB ? ?. simplify_eq. apply fields_agree_true. done.
Qed.

(** ** The merge loop *)

Lemma Update_loop_Some fieldsB n : ∀ fieldsA i,
  i + n ≤ length fieldsA → i + n ≤ length fieldsB →
  ∃ fields', Update_loop fieldsA fieldsB n i = Some fields' ∧
    length fields' = length fieldsA ∧
    (∀ j, j < i ∨ i + n ≤ j → fields' !! j = fieldsA !! j) ∧
    (∀ j fA fB, i ≤ j < i + n → fieldsA !! j = Some fA → fieldsB !! j = Some fB →
                fields' !! j = Some (merge_field fA fB)).
Proof.
  induction n as [|n IH]; intros fieldsA i HlenA HlenB; simpl.
  - exists fieldsA. split_and!; try done. intros; lia.
  - assert (is_Some (fieldsA !! i)) as [fA HA] by (apply lookup_lt_is_Some; lia).
    assert (is_Some (fieldsB !! i)) as [fB HB] by (apply lookup_lt_is_Some; lia).
    rewrite HA, HB. destruct (DefaultShepherd_ignored fA) eqn:Hig.
    + destruct (IH fieldsA (S i)) as (fields' & -> & Hlen & Hout & Hin); [lia..|].
      exists fields'. split_and!; try done.
      * intros j Hj. apply Hout. lia.
      * intros j gA gB Hj HgA HgB. destruct (decide (j = i)) as [->|].
        -- simplify_eq. rewrite Hout by lia. rewrite HA. unfold merge_field. by rewrite Hig.
        -- apply Hin; [lia|done..].
    + destruct (IH (<[i:=Value_Set fA (Value fB)]> fieldsA) (S i))
        as (fields' & -> & Hlen & Hout & Hin); [rewrite length_insert; lia|lia|].
      rewrite length_insert in Hlen.
      exists fields'. split_and!; try done.
      * intros j Hj. rewrite Hout by lia. apply list_lookup_insert_ne. lia.
      * intros j gA gB Hj HgA HgB. destruct (decide (j = i)) as [->|].
        -- simplify_eq. rewrite Hout by lia.
           rewrite list_lookup_insert_eq by lia. unfold merge_field. by rewrite Hig.
        -- apply Hin; [lia| |done]. rewrite list_lookup_insert_ne by lia. done.
Qed.

Lemma DefaultShepherd_Update_Some mA mB :
  length (Fields mA) ≤ length (Fields mB) →
  ∃ fields', DefaultShepherd_Update mA mB = Some (with_Fields mA fields') ∧
    length fields' = length (Fields mA) ∧
    ∀ i fA fB, Fields mA !! i = Some fA → Fields mB !! i = Some fB →
               fields' !! i = Some (merge_field fA fB).
Proof.
  intros Hlen. unfold DefaultShepherd_Update, Table_Fields. simpl.
  destruct (Update_loop_Some (Fields mB) (length (Fields mA)) (Fields mA) 0)
    as (fields' & -> & Hl & _ & Hin); [simpl; lia..|].
  exists fields'. split_and!; try done.
  intros i fA fB HA HB. apply Hin; try done. apply lookup_lt_Some in HA. lia.
Qed.

(** After the merge of two records of one type the comparison holds. *)
Lemma DefaultShepherd_converges s d :
  same_type s d = true →
  ∃ s', DefaultShepherd_Update s d = Some s' ∧ Pk s' = Pk s ∧
        DefaultShepherd_Equals d s' = Some true.
Proof.
  intros Hty. unfold same_type in Hty.
  assert (Hlen := same_fields_type_length _ _ Hty).
  destruct (DefaultShepherd_Update_Some s d) as (fields' & -> & Hl & Hin); [lia|].
  eexists. split_and!; [done..|].
  apply DefaultShepherd_Equals_true. simpl. split; [lia|].
  intros i fd fs' Hd Hs'.
  assert (is_Some (Fields s !! i)) as [fs Hs].
  { apply lookup_lt_is_Some. apply lookup_lt_Some in Hd. lia. }
  rewrite (Hin i fs fd Hs Hd) in Hs'. simplify_eq.
  assert (Hft := same_fields_type_lookup _ _ _ _ _ Hty Hs Hd).
  apply same_field_type_ignored in Hft.
  unfold fields_agree, merge_field. rewrite <- Hft.
  destruct (DefaultShepherd_ignored fs); [done|]. simpl. by apply DeepEqual_true.
Qed.

(** ** Closed forms *)

Lemma Equals_loop_closed fieldsA fieldsB n : ∀ i,
  i + n = length fieldsA → i ≤ length fieldsB →
  Equals_loop fieldsA fieldsB n i =
    if forallb (λ p, fields_agree p.1 p.2) (zip (drop i fieldsA) (drop i fieldsB))
    then (if decide (length fieldsA ≤ length fieldsB) then Some true else None)
    else Some false.
Proof.
  induction n as [|n IH]; intros i HA HB; simpl.
  - rewrite drop_ge by lia. simpl. by rewrite decide_True by lia.
  - assert (is_Some (fieldsA !! i)) as [fA HfA] by (apply lookup_lt_is_Some; lia).
    rewrite HfA, (drop_S _ _ _ HfA).
    destruct (fieldsB !! i) as [fB|] eqn:HfB.
    + rewrite (drop_S _ _ _ HfB). simpl.
      apply lookup_lt_Some in HfB.
      rewrite IH by lia.
      destruct (fields_agree fA fB) eqn:Hag; unfold fields_agree in Hag; simpl.
      * destruct (DefaultShepherd_ignored fA); [done|]. simpl in Hag. by rewrite Hag.
      * by apply orb_false_iff in Hag as [-> ->].
    + apply lookup_ge_None in HfB. rewrite (drop_ge fieldsB) by lia.
      simpl. by rewrite decide_False by lia.
Qed.

Lemma DefaultShepherd_Equals_closed mA mB :
  DefaultShepherd_Equals mA mB = Equals_closed (Fields mA) (Fields mB).
Proof.
  unfold DefaultShepherd_Equals, Equals_closed, Table_Fields. simpl.
  rewrite Equals_loop_closed by (simpl; lia). by rewrite !drop_0.
Qed.

Lemma Update_loop_None fieldsB n : ∀ fieldsA i,
  i + n = length fieldsA → length fieldsB < length fieldsA → i ≤ length fieldsB →
  Update_loop fieldsA fieldsB n i = None.
Proof.
  induction n as [|n IH]; intros fieldsA i HA Hlt HB; simpl; [lia|].
  destruct (fieldsA !! i) as [fA|]; [|done].
  destruct (fieldsB !! i) as [fB|] eqn:HfB; [|done].
  apply lookup_lt_Some in HfB.
  destruct (DefaultShepherd_ignored fA); apply IH; rewrite ?length_insert; lia.
Qed.

Lemma DefaultShepherd_Update_closed mA mB :
  DefaultShepherd_Update mA mB =
    with_Fields mA <$> Update_closed (Fields mA) (Fields mB).
Proof.
  unfold Update_closed. case_decide as Hlen.
  - destruct (DefaultShepherd_Update_Some mA mB Hlen) as (fields' & -> & Hl & Hin).
    simpl. do 2 f_equal. apply list_eq. intros i. rewrite lookup_zip_with.
    destruct (Fields mA !! i) as [fA|] eqn:HA; simpl.
    + assert (is_Some (Fields mB !! i)) as [fB HB].
      { apply lookup_lt_is_Some. apply lookup_lt_Some in HA. lia. }
      rewrite HB. simpl. by apply Hin.
    + apply lookup_ge_None. apply lookup_ge_None in HA. lia.
  - unfold DefaultShepherd_Update, Table_Fields. simpl.
    rewrite Update_loop_None; [done|simpl; lia..].
Qed.

Lemma same_field_type_merge fA fB :
  same_field_type fA fB = true → Value_Set fA (Value fB) = fB.
Proof.
  unfold same_field_type. rewrite !andb_true_iff, !bool_decide_eq_true.
  destruct fA, fB; simpl. intros [[[-> ->] ->] ->]. done.
Qed.

(** ** Merge fidelity *)

(** C3.  For a stored and a desired record of the same type, the default
    shepherd's [Update] returns the stored record with its key and its
    field count kept, in which every non-ignored field equals the
    desired record's field at the same index and every ignored field
    (primary key, auto-incremented or tagged [eq:"-"]) is the stored
    field as it was before the merge. *)
Theorem Update_merge_fidelity (mA mB : Model) :
  same_type mA mB = true →
  ∃ mA', DefaultShepherd_Update mA mB = Some mA' ∧
    Pk mA' = Pk mA ∧ length (Fields mA') = length (Fields mA) ∧
    ∀ i fA fB, Fields mA !! i = Some fA → Fields mB !! i = Some fB →
      ∃ fA', Fields mA' !! i = Some fA' ∧
        DefaultShepherd_ignored fA' = DefaultShepherd_ignored fA ∧
        (DefaultShepherd_ignored fA' = false → fA' = fB) ∧
        (DefaultShepherd_ignored fA' = true → fA' = fA).
Proof.
  intros Hty. unfold same_type in Hty.
  assert (Hlen := same_fields_type_length _ _ Hty).
  destruct (DefaultShepherd_Update_Some mA mB) as (fields' & -> & Hl & Hin); [lia|].
  eexists. split_and!; [done..|].
  intros i fA fB HA HB. simpl. rewrite (Hin i fA fB HA HB).
  eexists. split; [done|].
  assert (Hft := same_fields_type_lookup _ _ _ _ _ Hty HA HB).
  unfold merge_field. destruct (DefaultShepherd_ignored fA) eqn:Hig.
  - rewrite Hig. split_and!; done.
  - rewrite ignored_Value_Set, Hig. split_and!; [done| |done].
    intros _. by apply same_field_type_merge.
Qed.

Lemma Update_merge_fidelity_witness :
  ∃ mA', DefaultShepherd_Update (rec1 "a" 1) (rec1 "a" 2) = Some mA' ∧
    Pk mA' = Pk (rec1 "a" 1) ∧ length (Fields mA') = length (Fields (rec1 "a" 1)) ∧
    ∀ i fA fB, Fields (rec1 "a" 1) !! i = Some fA → Fields (rec1 "a" 2) !! i = Some fB →
      ∃ fA', Fields mA' !! i = Some fA' ∧
        DefaultShepherd_ignored fA' = DefaultShepherd_ignored fA ∧
        (DefaultShepherd_ignored fA' = false → fA' = fB) ∧
        (DefaultShepherd_ignored fA' = true → fA' = fA).
Proof. apply (Update_merge_fidelity (rec1 "a" 1) (rec1 "a" 2)). reflexivity. Defined.

(** ** The exclusion rule *)

(** C4.  A field is ignored exactly when it is the primary key, or
    auto-incremented, or tagged [eq] with the value ["-"].  [Equals]
    compares the values of every other field of its first record with
    the field at the same index of the second, and [Update] copies into
    every other field of its first record the value at the same index
    of the second; both decide by the one predicate
    [DefaultShepherd_ignored], applied to the first record's field. *)
Theorem ignored_rule_in_Equals_and_Update (f : Field) (mA mB : Model) :
  (DefaultShepherd_ignored f = true ↔
     FieldPk f = true ∨ Incremented f = true ∨
     Tag_Lookup "eq" (Tag f) = Some "-"%string) ∧
  DefaultShepherd_Equals mA mB =
    (if forallb (λ p, DefaultShepherd_ignored p.1 || DeepEqual (Value p.1) (Value p.2))
                (zip (Fields mA) (Fields mB))
     then (if decide (length (Fields mA) ≤ length (Fields mB)) then Some true else None)
     else Some false) ∧
  DefaultShepherd_Update mA mB =
    (if decide (length (Fields mA) ≤ length (Fields mB))
     then Some (with_Fields mA
            (zip_with (λ fA fB, if DefaultShepherd_ignored fA then fA
                                else Value_Set fA (Value fB))
                      (Fields mA) (Fields mB)))
     else None).
Proof.
  split_and!.
  - apply ignored_iff.
  - apply DefaultShepherd_Equals_closed.
  - rewrite DefaultShepherd_Update_closed. unfold Update_closed. by case_decide.
Qed.

(** ** Comparison and field counts *)

(** C5, as stated, fails: [Equals] answers true for records whose field
    counts differ (the trailing field of the second is not looked at),
    and indexes out of range when the first has more fields. *)
Lemma Equals_ignores_field_count :
  DefaultShepherd_Equals short_rec long_rec = Some true ∧
  length (Fields short_rec) ≠ length (Fields long_rec) ∧
  DefaultShepherd_Equals long_rec short_rec = None.
Proof. split_and!; [reflexivity | simpl; lia | reflexivity]. Qed.

(** C5, amended.  [Equals] returns false at the first index where a
    non-ignored field of the first record differs in value from the
    second record's field; it returns true exactly when the first
    record has no more fields than the second and every non-ignored
    field of the first record has the value of the field at the same
    index of the second.  Field counts are not compared. *)
Theorem Equals_first_mismatch_or_all_match (mA mB : Model) :
  (∀ i fA fB,
     Fields mA !! i = Some fA → Fields mB !! i = Some fB →
     DefaultShepherd_ignored fA = false → Value fA ≠ Value fB →
     (∀ k gA gB, k < i → Fields mA !! k = Some gA → Fields mB !! k = Some gB →
                 DefaultShepherd_ignored gA = false → Value gA = Value gB) →
     DefaultShepherd_Equals mA mB = Some false) ∧
  (DefaultShepherd_Equals mA mB = Some true ↔
     length (Fields mA) ≤ length (Fields mB) ∧
     ∀ i fA fB, Fields mA !! i = Some fA → Fields mB !! i = Some fB →
                DefaultShepherd_ignored fA = false → Value fA = Value fB).
Proof.
  split.
  - intros i fA fB HA HB Hig Hne Hbefore.
    apply (DefaultShepherd_Equals_false mA mB i fA fB HA HB).
    + unfold fields_agree. rewrite Hig. simpl. by apply DeepEqual_false.
    + intros k gA gB Hk HgA HgB. apply fields_agree_true. eauto.
  - rewrite DefaultShepherd_Equals_true. split; intros [Hlen H]; (split; [done|]).
    + intros i fA fB HA HB. apply fields_agree_true. eauto.
    + intros i fA fB HA HB. apply fields_agree_true. eauto.
Qed.

Lemma Equals_first_mismatch_or_all_match_witness :
  DefaultShepherd_Equals (rec1 "a" 1) (rec1 "a" 2) = Some false.
Proof.
  apply (proj1 (Equals_first_mismatch_or_all_match (rec1 "a" 1) (rec1 "a" 2)) 1%nat
           (mkField "Rev" [] (VInt 1) false false) (mkField "Rev" [] (VInt 2) false false)).
  - reflexivity.
  - reflexivity.
  - reflexivity.
  - simpl. discriminate.
  - intros k gA gB Hk HgA HgB Hig. destruct k as [|k]; [|lia].
    simpl in HgA. injection HgA as <-. simpl in Hig. discriminate.
Defined.

(** ** Discarded introspection errors *)

(** C10.  The default shepherd never looks at the error returned by
    field introspection: its answers depend on the field lists alone.
    When the first record's field list is empty, [Equals] returns true
    and [Update] returns the first record untouched whatever the second
    record and the errors are, so that the update phase skips an entry
    whose desired record (the first argument of its [Equals] call) has
    no fields, making no transaction call. *)
Theorem introspection_error_discarded {St : Type} (tx : TxOps St) (mA mB : Model) :
  (Table_Fields mA).1 = [] →
  DefaultShepherd_Equals mA mB = Some true ∧
  DefaultShepherd_Update mA mB = Some mA ∧
  (∀ errA errB,
     DefaultShepherd_Equals (mkModel (Pk mA) (Fields mA) errA)
                            (mkModel (Pk mB) (Fields mB) errB)
     = DefaultShepherd_Equals mA mB) ∧
  (∀ k l r,
     update_loop tx DefaultShepherd ((k, mkDisposition (Some mB) (Some mA)) :: l) r
     = update_loop tx DefaultShepherd l r).
Proof.
  destruct mA as [pk fields err]. simpl. intros ->.
  split_and!; try reflexivity.
  intros k l r. simpl. unfold mbind, M_bind, shepherd_call. simpl.
  by destruct (update_loop tx DefaultShepherd l r) as [[t r'] o].
Qed.

Lemma introspection_error_discarded_witness :
  DefaultShepherd_Equals opaque_rec long_rec = Some true ∧
  DefaultShepherd_Update opaque_rec long_rec = Some opaque_rec.
Proof.
  destruct (introspection_error_discarded MemTx opaque_rec long_rec) as (H1 & H2 & _).
  - reflexivity.
  - exact (conj H1 H2).
Defined.

(** * Properties of the disposition map *)

Lemma last_with_Pk_snoc k l m :
  last_with_Pk k (l ++ [m]) = if decide (Pk m = k) then Some m else last_with_Pk k l.
Proof.
  unfold last_with_Pk. rewrite filter_app, filter_cons, filter_nil.
  case_decide.
  - by rewrite last_snoc.
  - by rewrite app_nil_r.
Qed.

Lemma last_with_Pk_Some k l m :
  last_with_Pk k l = Some m → Pk m = k ∧ m ∈ l.
Proof.
  unfold last_with_Pk. intros H.
  assert (m ∈ filter (λ m, Pk m = k) l) as Hin.
  { apply last_Some in H as [l' ->]. set_solver. }
  by apply list_elem_of_filter in Hin.
Qed.

Lemma last_with_Pk_None k l : last_with_Pk k l = None ↔ k ∉ keys_of l.
Proof.
  unfold last_with_Pk, keys_of. rewrite last_None, elem_of_list_to_set, list_elem_of_fmap.
  split.
  - intros Hnil (m & -> & Hm).
    assert (m ∈ filter (λ m', Pk m' = Pk m) l) as Hin by by apply list_elem_of_filter.
    rewrite Hnil in Hin. by apply not_elem_of_nil in Hin.
  - intros Hno. destruct (filter (λ m, Pk m = k) l) as [|m rest] eqn:E; [done|].
    assert (m ∈ filter (λ m, Pk m = k) l) as Hin by (rewrite E; left).
    apply list_elem_of_filter in Hin as [<- Hin]. destruct Hno. eauto.
Qed.

Lemma last_with_Pk_is_Some k l : is_Some (last_with_Pk k l) ↔ k ∈ keys_of l.
Proof.
  rewrite <- not_eq_None_Some, last_with_Pk_None.
  split; [apply dec_stable | auto].
Qed.

Lemma last_with_Pk_last_occurrence k l m l3 :
  Pk m = k → Forall (λ m', Pk m' ≠ k) l3 → last_with_Pk k (l ++ m :: l3) = Some m.
Proof.
  intros Hk Hl3. unfold last_with_Pk.
  assert (filter (λ m', Pk m' = k) l3 = []) as Hnil.
  { induction Hl3 as [|m' l3 Hm _ IH]; [done|]. rewrite filter_cons. by rewrite decide_False. }
  rewrite filter_app, (filter_cons _ m l3), decide_True, Hnil by done.
  apply last_snoc.
Qed.

Lemma last_with_Pk_duplicate k l1 m1 l2 m2 l3 :
  Pk m2 = k → Forall (λ m, Pk m ≠ k) l3 →
  last_with_Pk k (l1 ++ m1 :: l2 ++ m2 :: l3) = Some m2.
Proof.
  intros Hk Hl3.
  replace (l1 ++ m1 :: l2 ++ m2 :: l3) with ((l1 ++ m1 :: l2) ++ m2 :: l3)
    by by rewrite <- app_assoc.
  by apply last_with_Pk_last_occurrence.
Qed.

Lemma foldl_put_stored_lookup l : ∀ mp k,
  foldl put_stored mp l !! k =
    match last_with_Pk k l with
    | Some m => Some (mkDisposition (Some m) None)
    | None => mp !! k
    end.
Proof.
  induction l as [|m l IH] using rev_ind; intros mp k; [done|].
  rewrite foldl_app, last_with_Pk_snoc. simpl. unfold put_stored at 1.
  case_decide as Hk.
  - subst k. by rewrite lookup_insert_eq.
  - rewrite lookup_insert_ne by done. apply IH.
Qed.

Lemma foldl_put_desired_lookup l : ∀ mp k,
  foldl put_desired mp l !! k =
    match last_with_Pk k l with
    | Some m => Some (mkDisposition (mp !! k ≫= stored) (Some m))
    | None => mp !! k
    end.
Proof.
  induction l as [|m l IH] using rev_ind; intros mp k; [done|].
  rewrite foldl_app, last_with_Pk_snoc. simpl. unfold put_desired at 1.
  case_decide as Hk.
  - subst k. rewrite (IH mp (Pk m)).
    destruct (last_with_Pk (Pk m) l) as [m'|];
      [|destruct (mp !! Pk m) as [dpn|]]; by rewrite lookup_insert_eq.
  - destruct (foldl put_desired mp l !! Pk m);
      rewrite lookup_insert_ne by done; apply IH.
Qed.

(** The entry of every key after both sequences were drained. *)
Lemma build_dispositions_lookup stored_seq desired_seq k :
  build_dispositions stored_seq desired_seq !! k =
    pair_up (last_with_Pk k stored_seq) (last_with_Pk k desired_seq).
Proof.
  unfold build_dispositions.
  rewrite foldl_put_desired_lookup, foldl_put_stored_lookup, lookup_empty.
  by destruct (last_with_Pk k stored_seq), (last_with_Pk k desired_seq).
Qed.

(** Every entry is filed under the key of the records it pairs. *)
Lemma build_dispositions_Pk stored_seq desired_seq k dpn :
  build_dispositions stored_seq desired_seq !! k = Some dpn →
  (∀ s, stored dpn = Some s → Pk s = k) ∧ (∀ d, desired dpn = Some d → Pk d = k).
Proof.
  rewrite build_dispositions_lookup.
  destruct (last_with_Pk k stored_seq) as [s|] eqn:Hs;
    destruct (last_with_Pk k desired_seq) as [d|] eqn:Hd; simpl; intros [= <-]; simpl;
    split; intros ? [= <-];
    first [by apply last_with_Pk_Some in Hs as [? _] | by apply last_with_Pk_Some in Hd as [? _]].
Qed.

Lemma elem_of_keys_where test (mp : Dispositions) k :
  k ∈ keys_where test mp ↔ ∃ dpn, mp !! k = Some dpn ∧ test dpn = true.
Proof.
  unfold keys_where. rewrite elem_of_dom. unfold is_Some.
  setoid_rewrite map_lookup_filter_Some. simpl. done.
Qed.

Lemma keys_where_build test stored_seq desired_seq k :
  k ∈ keys_where test (build_dispositions stored_seq desired_seq) ↔
  ∃ dpn, pair_up (last_with_Pk k stored_seq) (last_with_Pk k desired_seq) = Some dpn ∧
         test dpn = true.
Proof. by rewrite elem_of_keys_where, build_dispositions_lookup. Qed.

Lemma elem_of_keys_of_cases k l :
  (k ∈ keys_of l ∧ is_Some (last_with_Pk k l)) ∨
  ((k ∉ keys_of l) ∧ last_with_Pk k l = None).
Proof.
  destruct (last_with_Pk k l) as [m|] eqn:E.
  - left. split; [|by eexists]. apply last_with_Pk_is_Some. by eexists.
  - right. split; [|done]. by apply last_with_Pk_None.
Qed.

Ltac key_cases k ss ds :=
  let Hs := fresh "Hs" in let Hd := fresh "Hd" in
  destruct (elem_of_keys_of_cases k ss) as [[? [? Hs]]|[? Hs]],
           (elem_of_keys_of_cases k ds) as [[? [? Hd]]|[? Hd]];
  rewrite Hs, Hd; simpl.

Lemma add_set_build stored_seq desired_seq :
  add_set (build_dispositions stored_seq desired_seq)
  = keys_of desired_seq ∖ keys_of stored_seq.
Proof.
  apply set_eq. intros k. unfold add_set. rewrite keys_where_build, elem_of_difference.
  key_cases k stored_seq desired_seq; split; naive_solver.
Qed.

Lemma update_set_build stored_seq desired_seq :
  update_set (build_dispositions stored_seq desired_seq)
  = keys_of stored_seq ∩ keys_of desired_seq.
Proof.
  apply set_eq. intros k. unfold update_set. rewrite keys_where_build, elem_of_intersection.
  key_cases k stored_seq desired_seq; split; naive_solver.
Qed.

Lemma delete_set_build stored_seq desired_seq :
  delete_set (build_dispositions stored_seq desired_seq)
  = keys_of stored_seq ∖ keys_of desired_seq.
Proof.
  apply set_eq. intros k. unfold delete_set. rewrite keys_where_build, elem_of_difference.
  key_cases k stored_seq desired_seq; split; naive_solver.
Qed.

Lemma dom_build stored_seq desired_seq :
  dom (build_dispositions stored_seq desired_seq)
  = keys_of stored_seq ∪ keys_of desired_seq.
Proof.
  apply set_eq. intros k.
  rewrite elem_of_dom, build_dispositions_lookup, elem_of_union.
  key_cases k stored_seq desired_seq; split; naive_solver.
Qed.

(** C2.  After disposition building the add-set (desired present,
    stored absent) is the desired keys that are not stored keys, the
    update-set (both present) is the keys of both sequences and the
    delete-set (stored present, desired absent) is the stored keys that
    are not desired keys.  The three sets are pairwise disjoint, their
    union is the union of the stored and the desired keys, which is the
    map's domain, and no entry has both records absent. *)
Theorem dispositions_partition (stored_seq desired_seq : list Model) :
  let mp := build_dispositions stored_seq desired_seq in
  add_set mp = keys_of desired_seq ∖ keys_of stored_seq ∧
  update_set mp = keys_of stored_seq ∩ keys_of desired_seq ∧
  delete_set mp = keys_of stored_seq ∖ keys_of desired_seq ∧
  add_set mp ## update_set mp ∧
  add_set mp ## delete_set mp ∧
  update_set mp ## delete_set mp ∧
  add_set mp ∪ update_set mp ∪ delete_set mp = keys_of stored_seq ∪ keys_of desired_seq ∧
  dom mp = keys_of stored_seq ∪ keys_of desired_seq ∧
  (∀ k dpn, mp !! k = Some dpn → ¬ (stored dpn = None ∧ desired dpn = None)).
Proof.
  intros mp. subst mp.
  rewrite add_set_build, update_set_build, delete_set_build, dom_build.
  split_and!; try done; try set_solver.
  - apply set_eq. intros k.
    destruct (decide (k ∈ keys_of stored_seq)), (decide (k ∈ keys_of desired_seq));
      set_solver.
  - intros k dpn. rewrite build_dispositions_lookup.
    destruct (last_with_Pk k stored_seq), (last_with_Pk k desired_seq);
      simpl; intros [= <-] [? ?]; simplify_eq/=.
Qed.

(** C7.  When a sequence yields two records with the same primary key,
    the entry of that key holds the later one: for the stored sequence
    the entry's stored record is the later record, and for the desired
    sequence the entry's desired record is the later record while its
    stored record is the one the stored sequence left under that key.
    Building the map is a total function: a duplicate is no error. *)
Theorem dispositions_last_write_wins
    (stored_seq desired_seq l1 l2 l3 : list Model) (m1 m2 : Model) :
  Pk m1 = Pk m2 →
  Forall (λ m, Pk m ≠ Pk m2) l3 →
  build_dispositions (l1 ++ m1 :: l2 ++ m2 :: l3) desired_seq !! Pk m2
    = Some (mkDisposition (Some m2) (last_with_Pk (Pk m2) desired_seq)) ∧
  build_dispositions stored_seq (l1 ++ m1 :: l2 ++ m2 :: l3) !! Pk m2
    = Some (mkDisposition (last_with_Pk (Pk m2) stored_seq) (Some m2)).
Proof.
  intros _ Hl3. rewrite !build_dispositions_lookup.
  rewrite (last_with_Pk_duplicate (Pk m2) l1 m1 l2 m2 l3) by done.
  split; [done|]. by destruct (last_with_Pk (Pk m2) stored_seq).
Qed.

Lemma dispositions_last_write_wins_witness :
  build_dispositions [rec1 "a" 1; rec1 "b" 5; rec1 "a" 2; rec1 "c" 7] [rec1 "a" 3] !! "a"%string
    = Some (mkDisposition (Some (rec1 "a" 2)) (Some (rec1 "a" 3))) ∧
  build_dispositions [rec1 "a" 9] [rec1 "a" 1; rec1 "b" 5; rec1 "a" 2; rec1 "c" 7] !! "a"%string
    = Some (mkDisposition (Some (rec1 "a" 9)) (Some (rec1 "a" 2))).
Proof.
  apply (dispositions_last_write_wins [rec1 "a" 9] [rec1 "a" 3]
           [] [rec1 "b" 5] [rec1 "c" 7] (rec1 "a" 1) (rec1 "a" 2)).
  - reflexivity.
  - repeat constructor. simpl. discriminate.
Defined.

(** * Properties of the phases *)

Section Phases.
Context {St : Type} (tx : TxOps St).
Implicit Types (r : Collection St) (l : list (string * Disposition)).
Implicit Types (p : Phase) (t : list TxCall).

(** Each loop of the source is the generic loop of its phase. *)
Lemma add_loop_phase shepherd l : ∀ r,
  add_loop tx l r = phase_loop tx shepherd PhaseAdd l r.
Proof.
  induction l as [|[k [s d]] l IH]; intros r; [done|]. simpl.
  destruct d as [d|], s as [s|]; simpl; try apply IH.
  unfold mbind, M_bind, Tx_call. simpl.
  destruct (Tx_Insert tx d (Tx r)) as [s1 [e|]]; [done|].
  simpl. rewrite IH. unfold after_call.
  by destruct (phase_loop _ _ _ _ _) as [[t r'] o].
Qed.

Lemma delete_loop_phase shepherd l : ∀ r,
  delete_loop tx l r = phase_loop tx shepherd PhaseDelete l r.
Proof.
  induction l as [|[k [s d]] l IH]; intros r; [done|]. simpl.
  destruct d as [d|], s as [s|]; simpl; try apply IH.
  unfold mbind, M_bind, Tx_call. simpl.
  destruct (Tx_Delete tx s (Tx r)) as [s1 [e|]]; [done|].
  simpl. rewrite IH. unfold after_call.
  by destruct (phase_loop _ _ _ _ _) as [[t r'] o].
Qed.

Lemma update_loop_phase shepherd l : ∀ r,
  update_loop tx shepherd l r = phase_loop tx shepherd PhaseUpdate l r.
Proof.
  induction l as [|[k [s d]] l IH]; intros r; [done|]. simpl.
  destruct d as [d|], s as [s|]; simpl; try apply IH.
  unfold mbind, M_bind, shepherd_call. simpl.
  destruct (Equals shepherd d s) as [[|]|]; simpl; [|destruct (Update shepherd s d) as [s'|]|];
    simpl; try done.
  - rewrite IH. by destruct (phase_loop _ _ _ _ _) as [[t r'] o].
  - unfold Tx_call at 1. simpl.
    destruct (Tx_Update tx s' (Tx r)) as [s1 [e|]]; [done|].
    simpl. rewrite IH. unfold after_call.
    by destruct (phase_loop _ _ _ _ _) as [[t r'] o].
Qed.

Lemma run_phase_loop p l r :
  run_phase tx p l r = phase_loop tx (default DefaultShepherd (OptShepherd r)) p l r.
Proof.
  destruct p; simpl;
    [apply add_loop_phase | apply update_loop_phase | apply delete_loop_phase].
Qed.

Lemma counter_after_call p q s r :
  counter q (after_call p s r) = if decide (q = p) then incr (counter p r) else counter q r.
Proof. by destruct p, q. Qed.

Lemma Tx_succeed_snoc t c s s1 s2 :
  Tx_succeed tx t s = Some s1 → Tx_apply tx c s1 = (s2, None) →
  Tx_succeed tx (t ++ [c]) s = Some s2.
Proof.
  revert s. induction t as [|c' t IH]; intros s; simpl.
  - intros [= ->] ->. done.
  - destruct (Tx_apply tx c' s) as [s' [e|]]; [done|]. apply IH.
Qed.

(** What a run of a phase leaves behind, whatever its outcome. *)
Lemma phase_loop_report shepherd p l : ∀ r t r' o,
  phase_loop tx shepherd p l r = (t, r', o) →
  Forall (λ c, is_call_of p c = true) t ∧
  Stored r' = Stored r ∧ OptShepherd r' = OptShepherd r ∧
  (∀ q, q ≠ p → counter q r' = counter q r) ∧
  match o with
  | Some (Some e) =>
      ∃ t0 c s1, t = t0 ++ [c] ∧ Tx_succeed tx t0 (Tx r) = Some s1 ∧
        Tx_apply tx c s1 = (Tx r', Some e) ∧
        counter p r' = Nat.iter (length t0) incr (counter p r)
  | _ =>
      Tx_succeed tx t (Tx r) = Some (Tx r') ∧
      counter p r' = Nat.iter (length t) incr (counter p r)
  end.
Proof.
  induction l as [|[k dpn] l IH]; intros r t r' o; simpl.
  - intros [= <- <- <-]. split_and!; try done.
  - destruct (entry_action shepherd p dpn) as [[c|]|] eqn:Hact.
    + destruct (Tx_apply tx c (Tx r)) as [s [e|]] eqn:Hc.
      * intros [= <- <- <-]. simpl. split_and!; try done.
        -- constructor; [|done].
           destruct p, dpn as [[s0|] [d0|]]; simpl in Hact; simplify_eq/=; try done.
           destruct (Equals shepherd d0 s0) as [[|]|]; simplify_eq/=.
           destruct (Update shepherd s0 d0); simplify_eq/=. done.
        -- exists [], c, (Tx r). split_and!; done.
      * destruct (phase_loop tx shepherd p l (after_call p s r)) as [[t1 r1] o1] eqn:Hrec.
        intros [= <- <- <-].
        destruct (IH _ _ _ _ Hrec) as (Hcalls & HSt & HSh & Hq & Ho).
        assert (Tx (after_call p s r) = s) as HTx by by destruct p.
        rewrite HTx in Ho.
        split_and!.
        -- constructor; [|done].
           destruct p, dpn as [[s0|] [d0|]]; simpl in Hact; simplify_eq/=; try done.
           destruct (Equals shepherd d0 s0) as [[|]|]; simplify_eq/=.
           destruct (Update shepherd s0 d0); simplify_eq/=. done.
        -- rewrite HSt. by destruct p.
        -- rewrite HSh. by destruct p.
        -- intros q Hqp. rewrite Hq by done. rewrite counter_after_call.
           by rewrite decide_False.
        -- rewrite counter_after_call, decide_True in Ho by done.
           destruct o1 as [[e|]|].
           ++ destruct Ho as (t0 & c' & s1 & -> & Hsucc & Hfail & Hcnt).
              exists (c :: t0), c', s1. split_and!; try done.
              ** simpl. by rewrite Hc.
              ** rewrite Hcnt. by rewrite <- Nat.iter_succ_r.
           ++ destruct Ho as [Hsucc Hcnt]. simpl. rewrite Hc. split; [done|].
              rewrite Hcnt. by rewrite <- Nat.iter_succ_r.
           ++ destruct Ho as [Hsucc Hcnt]. simpl. rewrite Hc. split; [done|].
              rewrite Hcnt. by rewrite <- Nat.iter_succ_r.
    + apply IH.
    + intros [= <- <- <-]. split_and!; done.
Qed.

End Phases.

Lemma phase_loop_no_panic {St : Type} (tx : TxOps St) shepherd p l : ∀ r t r' o,
  p ≠ PhaseUpdate → phase_loop tx shepherd p l r = (t, r', o) → is_Some o.
Proof.
  induction l as [|[k dpn] l IH]; intros r t r' o Hp; simpl.
  - intros [= <- <- <-]. by eexists.
  - assert (entry_action shepherd p dpn ≠ None) as Hact.
    { by destruct p, dpn as [[s|] [d|]]. }
    destruct (entry_action shepherd p dpn) as [[c|]|]; [| by apply IH | done].
    destruct (Tx_apply tx c (Tx r)) as [s [e|]].
    + intros [= <- <- <-]. by eexists.
    + destruct (phase_loop tx shepherd p l (after_call p s r)) as [[t1 r1] o1] eqn:Hrec.
      intros [= <- <- <-]. by eapply IH.
Qed.

Lemma iter_incr_no_wrap (n : nat) (c : Z) :
  (- 2 ^ 63 ≤ c)%Z → (c + Z.of_nat n < 2 ^ 63)%Z → Nat.iter n incr c = (c + Z.of_nat n)%Z.
Proof.
  induction n as [|n IH]; intros Hlo Hhi; simpl; [lia|].
  rewrite IH by lia. unfold incr, wrap_int.
  rewrite Z.mod_small by lia. lia.
Qed.

(** ** A failing call among the calls made *)

Lemma Tx_succeed_fail {St : Type} (tx : TxOps St) t0 c t1 : ∀ (s s1 s2 : St) e,
  Tx_succeed tx t0 s = Some s1 → Tx_apply tx c s1 = (s2, Some e) →
  Tx_succeed tx (t0 ++ c :: t1) s = None.
Proof.
  induction t0 as [|c0 t0 IH]; intros s s1 s2 e; simpl.
  - intros [= ->] ->. done.
  - destruct (Tx_apply tx c0 s) as [s' [e'|]]; [done|]. apply IH.
Qed.

(** The first failing call of a list of calls lies after every run of
    successful calls the list begins with. *)
Lemma first_failure_split {St : Type} (tx : TxOps St) ta : ∀ t0 (s sa s1 s2 : St) c e t1 rest,
  Tx_succeed tx ta s = Some sa →
  ta ++ rest = t0 ++ c :: t1 →
  Tx_succeed tx t0 s = Some s1 → Tx_apply tx c s1 = (s2, Some e) →
  ∃ t0', t0 = ta ++ t0' ∧ rest = t0' ++ c :: t1 ∧ Tx_succeed tx t0' sa = Some s1.
Proof.
  induction ta as [|x ta IH]; intros t0 s sa s1 s2 c e t1 rest; simpl.
  - intros [= ->] -> Hs Hc. by exists t0.
  - destruct (Tx_apply tx x s) as [s' [e'|]] eqn:Hx; [done|]. intros Hta Heq Hs Hc.
    destruct t0 as [|y t0]; simpl in *.
    + injection Heq as -> _. injection Hs as ->. rewrite Hx in Hc. done.
    + injection Heq as -> Heq. rewrite Hx in Hs.
      destruct (IH t0 s' sa s1 s2 c e t1 rest Hta Heq Hs Hc) as (t0' & -> & -> & Hs').
      by exists t0'.
Qed.

(** A call that fails is the last a phase makes, and its error is the
    phase's. *)
Lemma phase_loop_first_failure {St : Type} (tx : TxOps St) shepherd p l
    (r r' : Collection St) t o t0 c t1 (s1 s2 : St) e :
  phase_loop tx shepherd p l r = (t, r', o) →
  t = t0 ++ c :: t1 →
  Tx_succeed tx t0 (Tx r) = Some s1 → Tx_apply tx c s1 = (s2, Some e) →
  t1 = [] ∧ o = Some (Some e) ∧ Tx r' = s2 ∧
  counter p r' = Nat.iter (length t0) incr (counter p r).
Proof.
  intros Hrun -> Hs Hc.
  destruct (phase_loop_report tx _ _ _ _ _ _ _ Hrun) as (_ & _ & _ & _ & Ho).
  assert (Tx_succeed tx (t0 ++ c :: t1) (Tx r) = None) as Hnone
    by by eapply Tx_succeed_fail.
  destruct o as [[e'|]|].
  - destruct Ho as (ta & c' & sa & Heq & Hsa & Hc' & Hcnt).
    destruct (first_failure_split tx ta t0 (Tx r) sa s1 s2 c e t1 [c'] Hsa
                (eq_sym Heq) Hs Hc) as (t0' & -> & Hrest & Hs').
    destruct t0' as [|y t0']; simpl in Hrest.
    + injection Hrest as -> <-. injection Hs' as ->.
      rewrite Hc in Hc'. injection Hc' as -> ->.
      rewrite app_nil_r. done.
    + injection Hrest as _ Hrest. by destruct t0'.
  - destruct Ho as [Hsucc _]. congruence.
  - destruct Ho as [Hsucc _]. congruence.
Qed.

(** [Reconcile] as the runs of its phases, whatever their outcome. *)
Lemma Reconcile_unfold {St : Type} (tx : TxOps St) rd ra ru desired_seq (r : Collection St) :
  let mp := build_dispositions (Stored r) desired_seq in
  let shepherd := default DefaultShepherd (OptShepherd r) in
  Collection_Reconcile tx rd ra ru desired_seq r =
    let '(td, r1, od) := phase_loop tx shepherd PhaseDelete (rd mp) (drained r) in
    match od with
    | Some None =>
        let '(ta, r2, oa) := phase_loop tx shepherd PhaseAdd (ra mp) r1 in
        match oa with
        | Some None =>
            let '(tu, r3, ou) := phase_loop tx shepherd PhaseUpdate (ru mp) r2 in
            (td ++ ta ++ tu, r3, ou)
        | _ => (td ++ ta, r2, oa)
        end
    | _ => (td, r1, od)
    end.
Proof.
  intros mp shepherd.
  unfold Collection_Reconcile, mbind, M_bind, Collection_dispositions. simpl.
  fold mp. fold (drained r).
  unfold Collection_delete. rewrite (delete_loop_phase tx shepherd).
  destruct (phase_loop tx shepherd PhaseDelete (rd mp) (drained r)) as [[td r1] od] eqn:Hd.
  destruct (phase_loop_report _ _ _ _ _ _ _ _ Hd) as (_ & _ & HSd & _).
  destruct od as [[e|]|]; simpl; [by rewrite app_nil_r| |done].
  unfold Collection_add. rewrite (add_loop_phase tx shepherd).
  destruct (phase_loop tx shepherd PhaseAdd (ra mp) r1) as [[ta r2] oa] eqn:Ha.
  destruct (phase_loop_report _ _ _ _ _ _ _ _ Ha) as (_ & _ & HSa & _).
  destruct oa as [[e|]|]; simpl; [by rewrite app_nil_r| |done].
  unfold Collection_update. rewrite update_loop_phase, HSa, HSd. simpl. fold shepherd.
  destruct (phase_loop tx shepherd PhaseUpdate (ru mp) r2) as [[tu r3] ou].
  destruct ou as [[e|]|]; simpl; by rewrite ?app_nil_r.
Qed.

(** ** Failure of a transaction operation *)

(** C6.  In every phase (add, update, delete), a transaction call
    that fails, the calls before it having succeeded, is the last call
    the phase makes: nothing follows it, the phase returns the error of
    that call, and the transaction is left as that call left it after
    the successful ones.  The phase's counter has then been incremented
    once for each successful call, and is never decremented or reset.
    A phase returns an error only in this way.  The calls of a phase
    are of its kind only and the two other counters stay as they were. *)
Theorem phase_aborts_on_first_error {St : Type} (tx : TxOps St) (p : Phase)
    (l : list (string * Disposition)) (r r' : Collection St)
    (t : list TxCall) (o : option error) :
  run_phase tx p l r = (t, r', o) →
  Forall (λ c, is_call_of p c = true) t ∧
  (∀ q, q ≠ p → counter q r' = counter q r) ∧
  (∀ t0 c t1 s1 s2 e,
     t = t0 ++ c :: t1 →
     Tx_succeed tx t0 (Tx r) = Some s1 →
     Tx_apply tx c s1 = (s2, Some e) →
     t1 = [] ∧ o = Some (Some e) ∧ Tx r' = s2 ∧
     counter p r' = Nat.iter (length t0) incr (counter p r) ∧
     ((- 2 ^ 63 ≤ counter p r)%Z → (counter p r + Z.of_nat (length t0) < 2 ^ 63)%Z →
      counter p r' = (counter p r + Z.of_nat (length t0))%Z)) ∧
  (∀ e, o = Some (Some e) →
     ∃ t0 c s1,
       t = t0 ++ [c] ∧
       Tx_succeed tx t0 (Tx r) = Some s1 ∧
       Tx_apply tx c s1 = (Tx r', Some e)).
Proof.
  rewrite run_phase_loop. intros Hrun.
  destruct (phase_loop_report tx _ _ _ _ _ _ _ Hrun) as (Hcalls & _ & _ & Hq & Ho).
  split_and!; [done..| |].
  - intros t0 c t1 s1 s2 e Ht Hs Hc.
    destruct (phase_loop_first_failure tx _ _ _ _ _ _ _ _ _ _ _ _ _ Hrun Ht Hs Hc)
      as (-> & -> & -> & Hcnt).
    split_and!; [done..|]. intros Hlo Hhi. rewrite Hcnt. by apply iter_incr_no_wrap.
  - intros e ->. destruct Ho as (t0 & c & s1 & -> & Hsucc & Hfail & _).
    by exists t0, c, s1.
Qed.

Lemma phase_aborts_on_first_error_witness :
  (@nil TxCall) = [] ∧
  Some (Some "quota exceeded"%string) = Some (Some "quota exceeded"%string) ∧
  Tx (mkCollection [] 0 None 0 0 1) = 0 ∧
  counter PhaseDelete (mkCollection [] 0 None 0 0 1)
    = Nat.iter (length [TxDelete (rec1 "1" 10)]) incr
        (counter PhaseDelete (mkCollection [] 1 None 0 0 0)).
Proof.
  destruct (phase_aborts_on_first_error QuotaTx PhaseDelete
              [("1"%string, mkDisposition (Some (rec1 "1" 10)) None);
               ("2"%string, mkDisposition (Some (rec1 "2" 20)) None);
               ("3"%string, mkDisposition (Some (rec1 "3" 30)) None)]
              (mkCollection [] 1 None 0 0 0) (mkCollection [] 0 None 0 0 1)
              [TxDelete (rec1 "1" 10); TxDelete (rec1 "2" 20)]
              (Some (Some "quota exceeded"%string)))
    as (_ & _ & H & _).
  - reflexivity.
  - destruct (H [TxDelete (rec1 "1" 10)] (TxDelete (rec1 "2" 20)) [] 0 0
                "quota exceeded"%string) as (H1 & H2 & H3 & H4 & _).
    + reflexivity.
    + reflexivity.
    + reflexivity.
    + exact (conj H1 (conj H2 (conj H3 H4))).
Defined.

(** ** The update phase *)

(** C8, as stated, fails: with a shepherd whose [Equals] depends on the
    order of its arguments, an entry whose stored record equals the
    desired one, stored first, is still updated. *)
Lemma update_compares_desired_first : ¬ skips_when_Equals_stored_desired.
Proof.
  intros H.
  specialize (H PrefixShepherd long_rec short_rec ∅ eq_refl eq_refl).
  vm_compute in H. discriminate.
Qed.

(** C8, amended.  The update phase uses the configured shepherd, or the
    default one when none is configured.  For an entry with both
    records present it calls [Equals] with the desired record first and
    the stored record second.  If the answer is true the entry is
    skipped: no transaction call, no counter change.  Otherwise the
    shepherd's [Update] merges the desired record into the stored one
    and the merged stored record is passed to the transaction's update;
    on success [Updated] is incremented and the loop goes on, on failure
    the phase returns the error.  A panic of the shepherd ends the
    phase. *)
Theorem update_phase_entry {St : Type} (tx : TxOps St) (rng : Range) (mp : Dispositions)
    (r : Collection St) (k : string) (s d : Model) (l : list (string * Disposition)) :
  let shepherd := default DefaultShepherd (OptShepherd r) in
  let entry := (k, mkDisposition (Some s) (Some d)) in
  Collection_update tx rng mp r = update_loop tx shepherd (rng mp) r ∧
  (OptShepherd r = None → shepherd = DefaultShepherd) ∧
  (∀ custom, OptShepherd r = Some custom → shepherd = custom) ∧
  match Equals shepherd d s with
  | Some true =>
      update_loop tx shepherd (entry :: l) r = update_loop tx shepherd l r
  | Some false =>
      match Update shepherd s d with
      | Some s' =>
          match Tx_Update tx s' (Tx r) with
          | (s1, None) =>
              update_loop tx shepherd (entry :: l) r =
                let '(t, r', o) :=
                  update_loop tx shepherd l
                    (mkCollection (Stored r) s1 (OptShepherd r)
                                  (Added r) (incr (Updated r)) (Deleted r)) in
                (TxUpdate s' :: t, r', o)
          | (s1, Some e) =>
              update_loop tx shepherd (entry :: l) r =
                ([TxUpdate s'],
                 mkCollection (Stored r) s1 (OptShepherd r)
                              (Added r) (Updated r) (Deleted r),
                 Some (Some e))
          end
      | None => update_loop tx shepherd (entry :: l) r = ([], r, None)
      end
  | None => update_loop tx shepherd (entry :: l) r = ([], r, None)
  end.
Proof.
  intros shepherd entry. split_and!.
  - reflexivity.
  - unfold shepherd. by intros ->.
  - unfold shepherd. by intros custom ->.
  - rewrite !update_loop_phase. simpl.
    destruct (Equals shepherd d s) as [[|]|]; simpl; try done.
    destruct (Update shepherd s d) as [s'|]; simpl; try done.
    destruct (Tx_Update tx s' (Tx r)) as [s1 [e|]]; try done.
    by rewrite update_loop_phase.
Qed.

(** ** The order of the phases *)

(** A delete call that fails ends [Reconcile]. *)
Lemma Reconcile_delete_failure {St : Type} (tx : TxOps St) rd ra ru desired_seq
    (r r' : Collection St) t o t0 c t1 (s1 s2 : St) e :
  Collection_Reconcile tx rd ra ru desired_seq r = (t, r', o) →
  t = t0 ++ c :: t1 →
  Tx_succeed tx t0 (Tx r) = Some s1 → Tx_apply tx c s1 = (s2, Some e) →
  is_call_of PhaseDelete c = true →
  t1 = [] ∧ o = Some (Some e) ∧ Tx r' = s2 ∧
  Forall (λ c, is_call_of PhaseDelete c = true) t ∧
  Added r' = Added r ∧ Updated r' = Updated r.
Proof.
  rewrite Reconcile_unfold. intros Hrun Ht Hs Hc Hdel.
  destruct (phase_loop tx _ PhaseDelete _ (drained r)) as [[td r1] od] eqn:Hd.
  destruct (phase_loop_report _ _ _ _ _ _ _ _ Hd) as (HFd & _ & _ & Hqd & Hod).
  assert (od ≠ Some None →
          t1 = [] ∧ o = Some (Some e) ∧ Tx r' = s2 ∧
          Forall (λ c, is_call_of PhaseDelete c = true) t ∧
          Added r' = Added r ∧ Updated r' = Updated r) as Hstop.
  { intros Hne.
    assert ((t, r', o) = (td, r1, od)) as [= -> -> ->]
      by (by destruct od as [[e'|]|]).
    destruct (phase_loop_first_failure tx _ _ _ _ _ _ _ _ _ _ _ _ _ Hd Ht Hs Hc)
      as (-> & -> & <- & _).
    split_and!; [done..| |].
    - by apply (Hqd PhaseAdd).
    - by apply (Hqd PhaseUpdate). }
  destruct od as [[e'|]|]; [by apply Hstop| |by apply Hstop].
  exfalso. destruct Hod as [Hsd _]. simpl in Hsd.
  assert (∃ rest, t = td ++ rest ∧
            Forall (λ c, is_call_of PhaseDelete c = false) rest) as (rest & Hrest & HF).
  { destruct (phase_loop tx _ PhaseAdd _ r1) as [[ta r2] oa] eqn:Ha.
    destruct (phase_loop_report _ _ _ _ _ _ _ _ Ha) as (HFa & _).
    assert (Forall (λ c, is_call_of PhaseDelete c = false) ta) as HFa'.
    { eapply Forall_impl; [exact HFa|]. by intros [m|m|m]. }
    destruct oa as [[e'|]|].
    - injection Hrun as <- _ _. by exists ta.
    - destruct (phase_loop tx _ PhaseUpdate _ r2) as [[tu r3] ou] eqn:Hu.
      destruct (phase_loop_report _ _ _ _ _ _ _ _ Hu) as (HFu & _).
      injection Hrun as <- _ _. exists (ta ++ tu). split; [done|].
      apply Forall_app. split; [done|].
      eapply Forall_impl; [exact HFu|]. by intros [m|m|m].
    - injection Hrun as <- _ _. by exists ta. }
  rewrite Ht in Hrest.
  destruct (first_failure_split tx td t0 (Tx r) (Tx r1) s1 s2 c e t1 rest Hsd
              (eq_sym Hrest) Hs Hc) as (t0' & _ & -> & _).
  apply Forall_app in HF as [_ HF]. apply Forall_cons in HF as [HF _]. congruence.
Qed.

(** C1.  [Reconcile] drains both sequences into one disposition map
    and passes that map to the delete phase, then to the add phase, then
    to the update phase.  The calls it makes are the delete phase's, all
    of them deletes, followed by the add phase's, all of them inserts,
    followed by the update phase's, all of them updates.  If the delete
    phase returns an error, [Reconcile] returns that error with only
    the delete phase's calls made and [Added] and [Updated] untouched;
    if the add phase returns an error the update phase does not run.
    A delete call that fails, the calls before it having succeeded, is
    the last call [Reconcile] makes: [Reconcile] returns the error of
    that call, every call made is a delete, and [Added] and [Updated]
    are untouched. *)
Theorem Reconcile_phase_order {St : Type} (tx : TxOps St) (rd ra ru : Range)
    (desired_seq : list Model) (r : Collection St) :
  let mp := build_dispositions (Stored r) desired_seq in
  let r0 := mkCollection [] (Tx r) (OptShepherd r) (Added r) (Updated r) (Deleted r) in
  Collection_dispositions desired_seq r = ([], r0, Some mp) ∧
  (∃ td r1 od,
    Collection_delete tx rd mp r0 = (td, r1, Some od) ∧
    Forall (λ c, is_call_of PhaseDelete c = true) td ∧
    match od with
    | Some e =>
        Collection_Reconcile tx rd ra ru desired_seq r = (td, r1, Some (Some e)) ∧
        Added r1 = Added r ∧ Updated r1 = Updated r
    | None =>
        ∃ ta r2 oa,
          Collection_add tx ra mp r1 = (ta, r2, Some oa) ∧
          Forall (λ c, is_call_of PhaseAdd c = true) ta ∧
          match oa with
          | Some e =>
              Collection_Reconcile tx rd ra ru desired_seq r
                = (td ++ ta, r2, Some (Some e)) ∧
              Updated r2 = Updated r
          | None =>
              ∃ tu r3 ou,
                Collection_update tx ru mp r2 = (tu, r3, ou) ∧
                Forall (λ c, is_call_of PhaseUpdate c = true) tu ∧
                Collection_Reconcile tx rd ra ru desired_seq r
                  = (td ++ ta ++ tu, r3, ou)
          end
    end) ∧
  (∀ t r' o t0 c t1 s1 s2 e,
     Collection_Reconcile tx rd ra ru desired_seq r = (t, r', o) →
     t = t0 ++ c :: t1 →
     Tx_succeed tx t0 (Tx r) = Some s1 →
     Tx_apply tx c s1 = (s2, Some e) →
     is_call_of PhaseDelete c = true →
     t1 = [] ∧ o = Some (Some e) ∧ Tx r' = s2 ∧
     Forall (λ c, is_call_of PhaseDelete c = true) t ∧
     Added r' = Added r ∧ Updated r' = Updated r).
Proof.
  intros mp r0. split; [done|].
  split; [|intros t r' o t0 c t1 s1 s2 e; apply Reconcile_delete_failure].
  unfold Collection_Reconcile, mbind, M_bind, Collection_dispositions.
  fold mp. fold r0. simpl.
  destruct (Collection_delete tx rd mp r0) as [[td r1] od] eqn:Hd.
  assert (Hd' := Hd). unfold Collection_delete in Hd'.
  rewrite (delete_loop_phase tx DefaultShepherd) in Hd'.
  destruct (phase_loop_no_panic tx DefaultShepherd PhaseDelete _ _ _ _ _ ltac:(done) Hd')
    as [errd ->].
  destruct (phase_loop_report _ _ _ _ _ _ _ _ Hd') as (Hcd & _ & _ & Hqd & _).
  exists td, r1, errd. split_and!; [done..|].
  destruct errd as [e|].
  { simpl. rewrite app_nil_r. split_and!; [done|..].
    - apply (Hqd PhaseAdd). done.
    - apply (Hqd PhaseUpdate). done. }
  destruct (Collection_add tx ra mp r1) as [[ta r2] oa] eqn:Ha.
  assert (Ha' := Ha). unfold Collection_add in Ha'.
  rewrite (add_loop_phase tx DefaultShepherd) in Ha'.
  destruct (phase_loop_no_panic tx DefaultShepherd PhaseAdd _ _ _ _ _ ltac:(done) Ha')
    as [erra ->].
  destruct (phase_loop_report _ _ _ _ _ _ _ _ Ha') as (Hca & _ & _ & Hqa & _).
  exists ta, r2, erra. split_and!; [done..|].
  destruct erra as [e|].
  { simpl. rewrite app_nil_r. split; [done|].
    transitivity (Updated r1); [apply (Hqa PhaseUpdate) | apply (Hqd PhaseUpdate)]; done. }
  destruct (Collection_update tx ru mp r2) as [[tu r3] ou] eqn:Hu.
  assert (Hu' := Hu). unfold Collection_update in Hu'.
  rewrite update_loop_phase in Hu'.
  destruct (phase_loop_report _ _ _ _ _ _ _ _ Hu') as (Hcu & _).
  exists tu, r3, ou. split_and!; [done..|].
  destruct ou as [[e|]|]; simpl; by rewrite ?app_nil_r.
Qed.

Lemma Reconcile_phase_order_witness :
  (@nil TxCall) = [] ∧
  Some (Some "quota exceeded"%string) = Some (Some "quota exceeded"%string) ∧
  Forall (λ c, is_call_of PhaseDelete c = true) [TxDelete (rec1 "1" 10)] ∧
  Added (mkCollection [] 0 None 0 0 0) = 0%Z ∧
  Updated (mkCollection [] 0 None 0 0 0) = 0%Z.
Proof.
  destruct (Reconcile_phase_order QuotaTx map_to_list map_to_list map_to_list desired3
              (mkCollection (stored_of store3) 0 None 0 0 0)) as (_ & _ & H).
  destruct (H [TxDelete (rec1 "1" 10)] (mkCollection [] 0 None 0 0 0)
              (Some (Some "quota exceeded"%string))
              [] (TxDelete (rec1 "1" 10)) [] 0 0 "quota exceeded"%string)
    as (H1 & H2 & _ & H3 & H4 & H5).
  - reflexivity.
  - reflexivity.
  - reflexivity.
  - reflexivity.
  - reflexivity.
  - exact (conj H1 (conj H2 (conj H3 (conj H4 H5)))).
Defined.

(** * Reconciling against a faithful store *)

Lemma phase_loop_idle {St : Type} (tx : TxOps St) shepherd p l (r : Collection St) :
  (∀ k dpn, (k, dpn) ∈ l → entry_action shepherd p dpn = Some None) →
  phase_loop tx shepherd p l r = ([], r, Some None).
Proof.
  induction l as [|[k dpn] l IH]; intros Hidle; simpl; [done|].
  rewrite (Hidle k dpn) by left. apply IH. intros k' dpn' Hin. apply (Hidle k' dpn'). by right.
Qed.

Lemma MemTx_apply c st :
  Tx_apply MemTx c st =
    (match c with
     | TxDelete m => delete (Pk m) st
     | TxInsert m | TxUpdate m => <[Pk m := m]> st
     end, None).
Proof. by destruct c. Qed.

Lemma MemTx_apply_lookup c st k :
  (Tx_apply MemTx c st).1 !! k =
    if decide (Pk (call_record c) = k) then call_effect (Some c) (st !! k) else st !! k.
Proof.
  rewrite MemTx_apply. destruct c as [m|m|m]; simpl; case_decide as Hk;
    subst; by rewrite ?lookup_insert_eq, ?lookup_insert_ne, ?lookup_delete_eq,
                      ?lookup_delete_ne by done.
Qed.

Lemma Tx_after_call {St : Type} p (s : St) (r : Collection St) : Tx (after_call p s r) = s.
Proof. by destruct p. Qed.

(** A phase run on a faithful store over entries with distinct keys:
    no panic, no error, and each key holds what its entry's call left. *)
Lemma phase_loop_MemTx shepherd p l : ∀ r,
  NoDup l.*1 →
  (∀ k dpn, (k, dpn) ∈ l →
     ∃ a, entry_action shepherd p dpn = Some a ∧
          ∀ c, a = Some c → Pk (call_record c) = k) →
  ∃ t r', phase_loop MemTx shepherd p l r = (t, r', Some None) ∧
    (∀ k, k ∉ l.*1 → Tx r' !! k = Tx r !! k) ∧
    (∀ k dpn a, (k, dpn) ∈ l → entry_action shepherd p dpn = Some a →
                Tx r' !! k = call_effect a (Tx r !! k)).
Proof.
  induction l as [|[k0 dpn0] l IH]; intros r Hnd Hent.
  - exists [], r. split_and!; [done..|]. intros k dpn a Hin. by apply not_elem_of_nil in Hin.
  - simpl in Hnd. apply NoDup_cons in Hnd as [Hk0 Hnd].
    destruct (Hent k0 dpn0) as (a0 & Ha0 & Hkey0); [left|].
    assert (∀ k dpn, (k, dpn) ∈ l →
              ∃ a, entry_action shepherd p dpn = Some a ∧
                   ∀ c, a = Some c → Pk (call_record c) = k) as Hent'.
    { intros k dpn Hin. apply Hent. by right. }
    assert (∀ k dpn, (k, dpn) ∈ l → k ≠ k0) as Hne.
    { intros k dpn Hin ->. apply Hk0. apply list_elem_of_fmap. by exists (k0, dpn). }
    simpl. rewrite Ha0. destruct a0 as [c|].
    + specialize (Hkey0 c eq_refl).
      destruct (Tx_apply MemTx c (Tx r)) as [st' e] eqn:Hc.
      assert (e = None) as -> by (rewrite MemTx_apply in Hc; congruence).
      assert (∀ k, st' !! k =
                if decide (k0 = k) then call_effect (Some c) (Tx r !! k) else Tx r !! k) as Hst'.
      { intros k. rewrite <- Hkey0. rewrite <- (MemTx_apply_lookup c (Tx r) k). by rewrite Hc. }
      destruct (IH (after_call p st' r) Hnd Hent') as (t & r' & -> & Hframe & Heff).
      rewrite Tx_after_call in Hframe, Heff.
      exists (c :: t), r'. split_and!; [done|..].
      * intros k Hk. simpl in Hk. apply not_elem_of_cons in Hk as [Hkk0 Hk].
        rewrite Hframe, Hst' by done. by rewrite decide_False.
      * intros k dpn a Hin Ha. apply elem_of_cons in Hin as [[= -> ->]|Hin].
        -- rewrite Ha0 in Ha. injection Ha as <-.
           rewrite Hframe, Hst' by done. by rewrite decide_True.
        -- rewrite (Heff k dpn a Hin Ha), Hst'. rewrite decide_False; [done|].
           intros <-. by apply (Hne k0 dpn).
    + destruct (IH r Hnd Hent') as (t & r' & -> & Hframe & Heff).
      exists t, r'. split_and!; [done|..].
      * intros k Hk. simpl in Hk. apply not_elem_of_cons in Hk as [_ Hk]. by apply Hframe.
      * intros k dpn a Hin Ha. apply elem_of_cons in Hin as [[= -> ->]|Hin].
        -- rewrite Ha0 in Ha. injection Ha as <-. simpl. by apply Hframe.
        -- by apply (Heff k dpn).
Qed.

Lemma Range_ok_NoDup rng (mp : Dispositions) : Range_ok rng → NoDup (rng mp).*1.
Proof. intros Hok. rewrite (Hok mp). apply NoDup_fst_map_to_list. Qed.

Lemma Range_ok_elem_of rng (mp : Dispositions) k dpn :
  Range_ok rng → (k, dpn) ∈ rng mp ↔ mp !! k = Some dpn.
Proof. intros Hok. rewrite (Hok mp). apply elem_of_map_to_list. Qed.

Lemma Range_ok_not_elem_of rng (mp : Dispositions) k :
  Range_ok rng → k ∉ (rng mp).*1 ↔ mp !! k = None.
Proof.
  intros Hok. rewrite (Hok mp). split.
  - intros Hno. destruct (mp !! k) as [dpn|] eqn:Hk; [|done].
    destruct Hno. apply list_elem_of_fmap. exists (k, dpn).
    split; [done|]. by apply elem_of_map_to_list.
  - intros Hnone ([k' dpn] & -> & Hin)%list_elem_of_fmap.
    apply elem_of_map_to_list in Hin. simpl in Hnone. congruence.
Qed.

(** A phase run on a faithful store over a whole map. *)
Lemma phase_on_map shepherd p rng (mp : Dispositions) r :
  Range_ok rng →
  (∀ k dpn, mp !! k = Some dpn →
     ∃ a, entry_action shepherd p dpn = Some a ∧
          ∀ c, a = Some c → Pk (call_record c) = k) →
  ∃ t r', phase_loop MemTx shepherd p (rng mp) r = (t, r', Some None) ∧
    ∀ k, Tx r' !! k =
      match mp !! k ≫= entry_action shepherd p with
      | Some a => call_effect a (Tx r !! k)
      | None => Tx r !! k
      end.
Proof.
  intros Hok Hent.
  destruct (phase_loop_MemTx shepherd p (rng mp) r) as (t & r' & Hrun & Hframe & Heff).
  { by apply Range_ok_NoDup. }
  { intros k dpn Hin. apply (Hent k). by apply (Range_ok_elem_of rng). }
  exists t, r'. split; [done|]. intros k.
  destruct (mp !! k) as [dpn|] eqn:Hk; simpl.
  - destruct (Hent k dpn Hk) as (a & Ha & _). rewrite Ha.
    apply (Heff k dpn); [|done]. by apply (Range_ok_elem_of rng).
  - apply Hframe. by apply Range_ok_not_elem_of.
Qed.

(** The stored sequence read back from a store yields, under each key,
    the record the store holds. *)
Lemma last_with_Pk_store (st : gmap string Model) stored_seq k :
  store_ok st → stored_seq ≡ₚ stored_of st → last_with_Pk k stored_seq = st !! k.
Proof.
  intros Hok Hperm.
  assert (∀ m, m ∈ stored_seq ↔ ∃ k', st !! k' = Some m) as Hin.
  { intros m. rewrite Hperm. unfold stored_of. rewrite list_elem_of_fmap. split.
    - intros ([k' m'] & -> & Hm). exists k'. by apply elem_of_map_to_list.
    - intros [k' Hm]. exists (k', m). split; [done|]. by apply elem_of_map_to_list. }
  destruct (last_with_Pk k stored_seq) as [m|] eqn:Hlast.
  - apply last_with_Pk_Some in Hlast as [Hk Hm].
    apply Hin in Hm as [k' Hm]. by rewrite <- Hk, (Hok k' m Hm) in *.
  - destruct (st !! k) as [m|] eqn:Hst; [|done].
    apply last_with_Pk_None in Hlast. destruct Hlast.
    unfold keys_of. rewrite elem_of_list_to_set, list_elem_of_fmap.
    exists m. split; [by rewrite (Hok k m Hst)|]. apply Hin. eauto.
Qed.

(** [Reconcile] in terms of the runs of its three phases. *)
Lemma Reconcile_run {St : Type} (tx : TxOps St) rd ra ru desired_seq
    (r r1 r2 r3 : Collection St) td ta tu o :
  let mp := build_dispositions (Stored r) desired_seq in
  let shepherd := default DefaultShepherd (OptShepherd r) in
  phase_loop tx shepherd PhaseDelete (rd mp)
    (mkCollection [] (Tx r) (OptShepherd r) (Added r) (Updated r) (Deleted r))
    = (td, r1, Some None) →
  phase_loop tx shepherd PhaseAdd (ra mp) r1 = (ta, r2, Some None) →
  phase_loop tx shepherd PhaseUpdate (ru mp) r2 = (tu, r3, Some o) →
  Collection_Reconcile tx rd ra ru desired_seq r = (td ++ ta ++ tu, r3, Some o).
Proof.
  intros mp shepherd Hd Ha Hu.
  destruct (phase_loop_report _ _ _ _ _ _ _ _ Hd) as (_ & _ & HSd & _).
  destruct (phase_loop_report _ _ _ _ _ _ _ _ Ha) as (_ & _ & HSa & _).
  unfold Collection_Reconcile, mbind, M_bind, Collection_dispositions. simpl.
  unfold Collection_delete. rewrite (delete_loop_phase tx shepherd). fold mp. rewrite Hd.
  unfold Collection_add. rewrite (add_loop_phase tx shepherd), Ha.
  unfold Collection_update. rewrite update_loop_phase.
  rewrite HSa, HSd. simpl. fold shepherd. rewrite Hu.
  destruct o; simpl; by rewrite !app_nil_r.
Qed.

(** A store in which every key holds a record that compares equal to
    the desired record of that key, and no other key, is left alone. *)
Lemma Reconcile_settled_store shepherd_opt (st1 : gmap string Model) desired_seq
    rd ra ru stored_seq (a u dl : Z) :
  Range_ok rd → Range_ok ra → Range_ok ru →
  store_ok st1 → stored_seq ≡ₚ stored_of st1 →
  (∀ k, match st1 !! k, last_with_Pk k desired_seq with
        | Some x, Some d => Equals (default DefaultShepherd shepherd_opt) d x = Some true
        | None, None => True
        | _, _ => False
        end) →
  Collection_Reconcile MemTx rd ra ru desired_seq
    (mkCollection stored_seq st1 shepherd_opt a u dl)
  = ([], mkCollection [] st1 shepherd_opt a u dl, Some None).
Proof.
  intros Hrd Hra Hru Hstore Hperm Hsettled.
  set (mp := build_dispositions stored_seq desired_seq).
  assert (∀ rng p k dpn, Range_ok rng → (k, dpn) ∈ rng mp →
            entry_action (default DefaultShepherd shepherd_opt) p dpn = Some None) as Hidle.
  { intros rng p k dpn Hrng Hin. apply (Range_ok_elem_of rng) in Hin; [|done].
    unfold mp in Hin. rewrite build_dispositions_lookup in Hin.
    rewrite (last_with_Pk_store st1) in Hin by done.
    specialize (Hsettled k).
    destruct (st1 !! k) as [x|], (last_with_Pk k desired_seq) as [d|];
      try done; simpl in Hin; injection Hin as <-.
    destruct p; simpl; try done. by rewrite Hsettled. }
  change (@nil TxCall) with (@nil TxCall ++ [] ++ []).
  apply (Reconcile_run MemTx rd ra ru desired_seq _
           (mkCollection [] st1 shepherd_opt a u dl)
           (mkCollection [] st1 shepherd_opt a u dl)); simpl; fold mp;
    apply phase_loop_idle; intros k dpn Hin.
  - by apply (Hidle rd PhaseDelete k dpn).
  - by apply (Hidle ra PhaseAdd k dpn).
  - by apply (Hidle ru PhaseUpdate k dpn).
Qed.

Section Faithful.
Variables (shepherd_opt : option Shepherd) (st : gmap string Model).
Variable desired_seq : list Model.

Abbreviation shepherd := (default DefaultShepherd shepherd_opt).

Hypothesis Hstore : store_ok st.
Hypothesis Hsettles : ∀ k s d,
  st !! k = Some s → last_with_Pk k desired_seq = Some d → settles shepherd s d.

Lemma entry_action_faithful p k dpn :
  pair_up (st !! k) (last_with_Pk k desired_seq) = Some dpn →
  ∃ a, entry_action shepherd p dpn = Some a ∧
       ∀ c, a = Some c → Pk (call_record c) = k.
Proof.
  destruct (st !! k) as [s|] eqn:Hs, (last_with_Pk k desired_seq) as [d|] eqn:Hd;
    simpl; intros [= <-].
  - destruct p; simpl; try (by eexists; split; [done|]; intros c [=]).
    destruct (Hsettles k s d Hs Hd) as [->|(-> & s' & -> & HPk & _)]; simpl.
    + eexists; split; [done|]. by intros c [=].
    + eexists; split; [done|]. intros c [= <-]. simpl. rewrite HPk. by apply Hstore.
  - destruct p; simpl; try (by eexists; split; [done|]; intros c [=]).
    eexists; split; [done|]. intros c [= <-]. simpl. by apply Hstore.
  - destruct p; simpl; try (by eexists; split; [done|]; intros c [=]).
    eexists; split; [done|]. intros c [= <-]. simpl.
    by apply last_with_Pk_Some in Hd as [? _].
Qed.

(** The first run succeeds and leaves the reconciled store. *)
Lemma Reconcile_faithful rd ra ru stored_seq (a u dl : Z) :
  Range_ok rd → Range_ok ra → Range_ok ru →
  stored_seq ≡ₚ stored_of st →
  ∃ t r1,
    Collection_Reconcile MemTx rd ra ru desired_seq
      (mkCollection stored_seq st shepherd_opt a u dl) = (t, r1, Some None) ∧
    Stored r1 = [] ∧ OptShepherd r1 = shepherd_opt ∧
    ∀ k, Tx r1 !! k = reconciled shepherd (st !! k) (last_with_Pk k desired_seq).
Proof.
  intros Hrd Hra Hru Hperm.
  set (mp := build_dispositions stored_seq desired_seq).
  assert (∀ k, mp !! k = pair_up (st !! k) (last_with_Pk k desired_seq)) as Hmp.
  { intros k. unfold mp. rewrite build_dispositions_lookup.
    by rewrite (last_with_Pk_store st). }
  assert (∀ p k dpn, mp !! k = Some dpn →
            ∃ a, entry_action shepherd p dpn = Some a ∧
                 ∀ c, a = Some c → Pk (call_record c) = k) as Hent.
  { intros p k dpn Hk. apply entry_action_faithful. by rewrite <- Hmp. }
  destruct (phase_on_map shepherd PhaseDelete rd mp
              (mkCollection [] st shepherd_opt a u dl) Hrd (Hent PhaseDelete))
    as (td & r1 & Hd & Hst1).
  destruct (phase_on_map shepherd PhaseAdd ra mp r1 Hra (Hent PhaseAdd))
    as (ta & r2 & Ha & Hst2).
  destruct (phase_on_map shepherd PhaseUpdate ru mp r2 Hru (Hent PhaseUpdate))
    as (tu & r3 & Hu & Hst3).
  exists (td ++ ta ++ tu), r3. split_and!.
  - by apply (Reconcile_run MemTx rd ra ru desired_seq _ r1 r2 r3).
  - destruct (phase_loop_report _ _ _ _ _ _ _ _ Hu) as (_ & -> & _).
    destruct (phase_loop_report _ _ _ _ _ _ _ _ Ha) as (_ & -> & _).
    by destruct (phase_loop_report _ _ _ _ _ _ _ _ Hd) as (_ & -> & _).
  - destruct (phase_loop_report _ _ _ _ _ _ _ _ Hu) as (_ & _ & -> & _).
    destruct (phase_loop_report _ _ _ _ _ _ _ _ Ha) as (_ & _ & -> & _).
    by destruct (phase_loop_report _ _ _ _ _ _ _ _ Hd) as (_ & _ & -> & _).
  - intros k. rewrite Hst3, Hst2, Hst1, Hmp. simpl.
    destruct (st !! k) as [s|] eqn:Hs, (last_with_Pk k desired_seq) as [d|] eqn:Hd';
      simpl; try done.
    destruct (Hsettles k s d Hs Hd') as [->|(-> & s' & -> & _)]; simpl; done.
Qed.

Hypothesis Hrefl : ∀ k d,
  st !! k = None → last_with_Pk k desired_seq = Some d → Equals shepherd d d = Some true.

(** The reconciled store is settled. *)
Lemma reconciled_settled k :
  match reconciled shepherd (st !! k) (last_with_Pk k desired_seq),
        last_with_Pk k desired_seq with
  | Some x, Some d => Pk x = k ∧ Equals shepherd d x = Some true
  | None, None => True
  | _, _ => False
  end.
Proof.
  destruct (st !! k) as [s|] eqn:Hs, (last_with_Pk k desired_seq) as [d|] eqn:Hd;
    simpl; try done.
  - destruct (Hsettles k s d Hs Hd) as [Heq|(Hne & s' & HU & HPk & Heq)].
    + rewrite Heq. split; [by apply Hstore | done].
    + rewrite Hne, HU. split; [|done]. rewrite HPk. by apply Hstore.
  - split; [|by eapply Hrefl]. by apply last_with_Pk_Some in Hd as [? _].
Qed.

End Faithful.

(** The default shepherd settles records of one type. *)
Lemma DefaultShepherd_settles s d :
  same_type s d = true → settles DefaultShepherd s d.
Proof.
  intros Hty. assert (Hlen := same_fields_type_length _ _ Hty).
  destruct (DefaultShepherd_converges s d Hty) as (s' & HU & HPk & Heq).
  unfold settles. simpl. rewrite DefaultShepherd_Equals_closed. unfold Equals_closed.
  rewrite decide_True by lia.
  destruct (forallb _ _); [by left | right]. split; [done|]. by exists s'.
Qed.

(** The pairs of a store and a desired sequence are of one type when
    each desired record is of the type of the stored record of its key. *)
Lemma same_type_pairs (st : gmap string Model) desired_seq :
  forallb (λ d, match st !! Pk d with Some s => same_type s d | None => true end)
          desired_seq = true →
  ∀ k s d, st !! k = Some s → last_with_Pk k desired_seq = Some d → same_type s d = true.
Proof.
  intros Hall k s d Hs Hd. apply last_with_Pk_Some in Hd as [<- Hin].
  rewrite forallb_forall in Hall. apply list_elem_of_In, Hall in Hin.
  by rewrite Hs in Hin.
Qed.

(** ** Idempotence *)

(** C9, as stated, fails: with a shepherd that never finds two records
    equal the second run updates again. *)
Lemma second_run_updates_again :
  ¬ (∀ shepherd_opt st desired_seq,
       store_ok st → second_run_changes_nothing shepherd_opt st desired_seq).
Proof.
  intros H.
  specialize (H (Some RestlessShepherd) {["a"%string := rec1 "a" 1]} [rec1 "a" 1]).
  assert (store_ok {["a"%string := rec1 "a" 1]}) as Hok by by apply map_Forall_singleton.
  specialize (H Hok). vm_compute in H. destruct H as (_ & _ & H & _). discriminate.
Qed.

(** C9, amended.  Let the transaction be a faithful store, the stored
    sequence of each run be read back from it, and the desired sequence
    be the same in both runs.  If the shepherd in use settles every
    stored record against the desired record of its key (they compare
    equal, desired first, or the merge keeps the key and makes them
    so), and finds each desired record with no stored counterpart equal
    to itself, then the first [Reconcile] succeeds and a second one
    makes no transaction call: it leaves the store and the counters
    [Added], [Updated] and [Deleted] as they were. *)
Theorem Reconcile_idempotent (shepherd_opt : option Shepherd) (st : gmap string Model)
    (desired_seq stored_seq : list Model) (rd ra ru rd' ra' ru' : Range) (a u dl : Z) :
  Range_ok rd → Range_ok ra → Range_ok ru →
  Range_ok rd' → Range_ok ra' → Range_ok ru' →
  store_ok st →
  stored_seq ≡ₚ stored_of st →
  (∀ k s d, st !! k = Some s → last_with_Pk k desired_seq = Some d →
            settles (default DefaultShepherd shepherd_opt) s d) →
  (∀ k d, st !! k = None → last_with_Pk k desired_seq = Some d →
          Equals (default DefaultShepherd shepherd_opt) d d = Some true) →
  ∃ t r1,
    Collection_Reconcile MemTx rd ra ru desired_seq
      (mkCollection stored_seq st shepherd_opt a u dl) = (t, r1, Some None) ∧
    ∀ stored_seq', stored_seq' ≡ₚ stored_of (Tx r1) →
      Collection_Reconcile MemTx rd' ra' ru' desired_seq
        (mkCollection stored_seq' (Tx r1) (OptShepherd r1)
                      (Added r1) (Updated r1) (Deleted r1))
      = ([], mkCollection [] (Tx r1) (OptShepherd r1)
                          (Added r1) (Updated r1) (Deleted r1), Some None).
Proof.
  intros Hrd Hra Hru Hrd' Hra' Hru' Hstore Hperm Hsettles Hrefl.
  destruct (Reconcile_faithful shepherd_opt st desired_seq Hstore Hsettles
              rd ra ru stored_seq a u dl Hrd Hra Hru Hperm)
    as (t & r1 & Hrun & _ & HSh & Hst1).
  exists t, r1. split; [done|]. intros stored_seq' Hperm'. rewrite HSh.
  assert (Hset := reconciled_settled shepherd_opt st desired_seq Hstore Hsettles Hrefl).
  apply Reconcile_settled_store; try done.
  - intros k x Hx. specialize (Hset k). rewrite <- Hst1, Hx in Hset.
    by destruct (last_with_Pk k desired_seq) as [d|]; [destruct Hset|].
  - intros k. specialize (Hset k). rewrite <- Hst1 in Hset.
    destruct (Tx r1 !! k), (last_with_Pk k desired_seq); try done. by destruct Hset.
Qed.

Lemma Reconcile_idempotent_witness :
  ∃ t r1,
    Collection_Reconcile MemTx map_to_list map_to_list map_to_list desired3
      (mkCollection (stored_of store3) store3 None 0 0 0) = (t, r1, Some None) ∧
    ∀ stored_seq', stored_seq' ≡ₚ stored_of (Tx r1) →
      Collection_Reconcile MemTx map_to_list map_to_list map_to_list desired3
        (mkCollection stored_seq' (Tx r1) (OptShepherd r1)
                      (Added r1) (Updated r1) (Deleted r1))
      = ([], mkCollection [] (Tx r1) (OptShepherd r1)
                          (Added r1) (Updated r1) (Deleted r1), Some None).
Proof.
  apply (Reconcile_idempotent None store3 desired3 (stored_of store3)
           map_to_list map_to_list map_to_list map_to_list map_to_list map_to_list 0 0 0).
  - intros mp. reflexivity.
  - intros mp. reflexivity.
  - intros mp. reflexivity.
  - intros mp. reflexivity.
  - intros mp. reflexivity.
  - intros mp. reflexivity.
  - unfold store_ok. apply (bool_decide_unpack _). vm_compute. exact I.
  - reflexivity.
  - intros k s d Hs Hd. apply DefaultShepherd_settles.
    apply (same_type_pairs store3 desired3 eq_refl k s d Hs Hd).
  - intros k d _ _. apply DefaultShepherd_Equals_refl.
Defined.

(** * Further properties of the default shepherd *)

Lemma same_field_type_agree_sym fA fB :
  same_field_type fA fB = true → fields_agree fA fB = fields_agree fB fA.
Proof.
  intros Hty. unfold fields_agree. rewrite (same_field_type_ignored _ _ Hty).
  f_equal. unfold DeepEqual. apply bool_decide_ext. split; congruence.
Qed.

Lemma same_fields_type_agree_sym fieldsA fieldsB :
  same_fields_type fieldsA fieldsB = true →
  forallb (λ p, fields_agree p.1 p.2) (zip fieldsA fieldsB)
  = forallb (λ p, fields_agree p.1 p.2) (zip fieldsB fieldsA).
Proof.
  revert fieldsB. induction fieldsA as [|fA restA IH]; intros [|fB restB]; simpl; try done.
  intros [H1 H2]%andb_prop. by rewrite (same_field_type_agree_sym _ _ H1), (IH _ H2).
Qed.

Lemma Value_Set_same f : Value_Set f (Value f) = f.
Proof. by destruct f. Qed.

Lemma with_Fields_same m : with_Fields m (Fields m) = m.
Proof. by destruct m. Qed.

Lemma merge_field_idem fA fB : merge_field (merge_field fA fB) fB = merge_field fA fB.
Proof.
  unfold merge_field. destruct (DefaultShepherd_ignored fA) eqn:Hig.
  - by rewrite Hig.
  - by rewrite ignored_Value_Set, Hig.
Qed.

Lemma same_field_type_merge_field fA fB : same_field_type fA (merge_field fA fB) = true.
Proof.
  unfold merge_field, same_field_type.
  destruct (DefaultShepherd_ignored fA); simpl; by rewrite !bool_decide_eq_true_2.
Qed.

Lemma DefaultShepherd_Update_inv mA mB mA' :
  DefaultShepherd_Update mA mB = Some mA' →
  length (Fields mA) ≤ length (Fields mB) ∧
  mA' = with_Fields mA (zip_with merge_field (Fields mA) (Fields mB)).
Proof.
  rewrite DefaultShepherd_Update_closed. unfold Update_closed.
  case_decide; simpl; [|done]. by intros [= <-].
Qed.

(** X1.  On records of one type the answer of the default [Equals]
    does not depend on the order of its two arguments, and [Equals] is
    transitive. *)
Theorem DefaultShepherd_Equals_symmetric_transitive (mA mB mC : Model) :
  same_type mA mB = true → same_type mB mC = true →
  DefaultShepherd_Equals mA mB = DefaultShepherd_Equals mB mA ∧
  (DefaultShepherd_Equals mA mB = Some true →
   DefaultShepherd_Equals mB mC = Some true →
   DefaultShepherd_Equals mA mC = Some true).
Proof.
  intros HAB HBC. unfold same_type in *.
  assert (HlenAB := same_fields_type_length _ _ HAB).
  assert (HlenBC := same_fields_type_length _ _ HBC).
  split.
  - rewrite !DefaultShepherd_Equals_closed. unfold Equals_closed.
    rewrite (same_fields_type_agree_sym _ _ HAB).
    destruct (forallb _ _); [|done]. by rewrite !decide_True by lia.
  - rewrite !DefaultShepherd_Equals_true. intros [_ H1] [_ H2]. split; [lia|].
    intros i fA fC HfA HfC.
    assert (is_Some (Fields mB !! i)) as [fB HfB].
    { apply lookup_lt_is_Some. apply lookup_lt_Some in HfA. lia. }
    assert (Hig := same_field_type_ignored _ _
                     (same_fields_type_lookup _ _ _ _ _ HAB HfA HfB)).
    specialize (H1 i fA fB HfA HfB). specialize (H2 i fB fC HfB HfC).
    rewrite fields_agree_true in *. intros Hn.
    rewrite (H1 Hn). apply H2. congruence.
Qed.

Lemma DefaultShepherd_Equals_symmetric_transitive_witness :
  DefaultShepherd_Equals (rec1 "a" 1) (rec1 "b" 1)
    = DefaultShepherd_Equals (rec1 "b" 1) (rec1 "a" 1) ∧
  (DefaultShepherd_Equals (rec1 "a" 1) (rec1 "b" 1) = Some true →
   DefaultShepherd_Equals (rec1 "b" 1) (rec1 "c" 1) = Some true →
   DefaultShepherd_Equals (rec1 "a" 1) (rec1 "c" 1) = Some true).
Proof.
  apply (DefaultShepherd_Equals_symmetric_transitive (rec1 "a" 1) (rec1 "b" 1) (rec1 "c" 1));
    reflexivity.
Defined.

(** X2.  When the default [Equals], called as the update phase calls it
    (desired first), finds a stored and a desired record of one type
    equal, the default [Update] of the stored record would return and
    leave every ignored field as it was and every other field with
    nothing but its value set, to a value [DeepEqual] to the one it
    had: the entries the update phase skips are entries the merge
    would not have changed. *)
Theorem DefaultShepherd_Equals_true_Update_keeps (s d : Model) :
  same_type s d = true →
  DefaultShepherd_Equals d s = Some true →
  ∃ s', DefaultShepherd_Update s d = Some s' ∧
    Pk s' = Pk s ∧ length (Fields s') = length (Fields s) ∧
    ∀ i fs fs', Fields s !! i = Some fs → Fields s' !! i = Some fs' →
      (DefaultShepherd_ignored fs = true → fs' = fs) ∧
      (DefaultShepherd_ignored fs = false →
       fs' = Value_Set fs (Value fs') ∧ DeepEqual (Value fs') (Value fs) = true).
Proof.
  intros Hty Heq. unfold same_type in Hty.
  assert (Hlen := same_fields_type_length _ _ Hty).
  destruct (DefaultShepherd_Update_Some s d) as (fields' & -> & Hl & Hin); [lia|].
  apply DefaultShepherd_Equals_true in Heq as [_ Heq].
  eexists. split_and!; [done..|]. simpl. intros i fs fs' Hs Hs'.
  assert (is_Some (Fields d !! i)) as [fd Hd].
  { apply lookup_lt_is_Some. apply lookup_lt_Some in Hs. lia. }
  rewrite (Hin i fs fd Hs Hd) in Hs'. injection Hs' as <-.
  assert (Hig := same_field_type_ignored _ _ (same_fields_type_lookup _ _ _ _ _ Hty Hs Hd)).
  specialize (Heq i fd fs Hd Hs). unfold fields_agree in Heq. rewrite <- Hig in Heq.
  unfold merge_field. destruct (DefaultShepherd_ignored fs); split; done.
Qed.

Lemma DefaultShepherd_Equals_true_Update_keeps_witness :
  ∃ s', DefaultShepherd_Update (rec1 "a" 1) (rec1 "b" 1) = Some s' ∧
    Pk s' = Pk (rec1 "a" 1) ∧ length (Fields s') = length (Fields (rec1 "a" 1)) ∧
    ∀ i fs fs', Fields (rec1 "a" 1) !! i = Some fs → Fields s' !! i = Some fs' →
      (DefaultShepherd_ignored fs = true → fs' = fs) ∧
      (DefaultShepherd_ignored fs = false →
       fs' = Value_Set fs (Value fs') ∧ DeepEqual (Value fs') (Value fs) = true).
Proof.
  apply (DefaultShepherd_Equals_true_Update_keeps (rec1 "a" 1) (rec1 "b" 1)); reflexivity.
Defined.

(** X3.  The default [Update] is idempotent: merging the same desired
    record into the merged stored record changes nothing more. *)
Theorem DefaultShepherd_Update_idempotent (s d s' : Model) :
  DefaultShepherd_Update s d = Some s' → DefaultShepherd_Update s' d = Some s'.
Proof.
  intros [Hlen ->]%DefaultShepherd_Update_inv.
  rewrite DefaultShepherd_Update_closed. unfold Update_closed. simpl.
  rewrite length_zip_with, decide_True by lia. simpl. f_equal.
  unfold with_Fields. simpl. f_equal.
  apply list_eq. intros i. rewrite !lookup_zip_with.
  destruct (Fields s !! i) as [fs|]; simpl; [|done].
  destruct (Fields d !! i) as [fd|]; simpl; [|done].
  by rewrite merge_field_idem.
Qed.

Lemma DefaultShepherd_Update_idempotent_witness :
  DefaultShepherd_Update (mkModel "a" [mkField "ID" [("sql", "pk")] (VString "a") true false;
                                       mkField "Rev" [] (VInt 2) false false] None)
                         (rec1 "b" 2)
  = Some (mkModel "a" [mkField "ID" [("sql", "pk")] (VString "a") true false;
                       mkField "Rev" [] (VInt 2) false false] None).
Proof.
  apply (DefaultShepherd_Update_idempotent (rec1 "a" 1) (rec1 "b" 2)). reflexivity.
Defined.

(** X4.  A default [Update] that returns has kept the stored record's
    shape: the result has the stored record's primary key and the same
    fields in number, names, tags and flags, so it is of the stored
    record's type; only values were set. *)
Theorem DefaultShepherd_Update_keeps_type (s d s' : Model) :
  DefaultShepherd_Update s d = Some s' →
  Pk s' = Pk s ∧ length (Fields s') = length (Fields s) ∧ same_type s s' = true.
Proof.
  intros [Hlen ->]%DefaultShepherd_Update_inv. simpl.
  rewrite length_zip_with. split_and!; [done|lia|].
  unfold same_type. simpl. revert Hlen. generalize (Fields d).
  induction (Fields s) as [|fs rest IH]; intros [|fd restd] Hlen; simpl in *; try done; try lia.
  rewrite same_field_type_merge_field. simpl. apply IH. lia.
Qed.

Lemma DefaultShepherd_Update_keeps_type_witness :
  ∃ s', DefaultShepherd_Update (rec1 "a" 1) long_rec = Some s' ∧
        Pk s' = "a"%string ∧ length (Fields s') = 2 ∧ same_type (rec1 "a" 1) s' = true.
Proof.
  eexists. split; [reflexivity|].
  apply (DefaultShepherd_Update_keeps_type (rec1 "a" 1) long_rec). reflexivity.
Defined.

(** X5.  Records of different field counts in the update phase, with
    the default shepherd; [agree] says that every non-ignored field of
    the desired record has the value of the stored record's field at
    the same index, as far as both records have fields.  If the desired
    record has more fields than the stored one and [agree] holds, the
    phase panics at that entry (the comparison indexes the stored
    fields out of range).  If it has fewer fields and [agree] fails,
    the phase panics at that entry too (in the merge), no transaction
    call being made for it.  If it has no more fields than the stored
    one and [agree] holds, the entry is skipped without a call: the
    further fields of the stored record are not looked at. *)
Theorem update_entry_field_count_mismatch {St : Type} (tx : TxOps St) (k : string)
    (s d : Model) (l : list (string * Disposition)) (r : Collection St) :
  let agree := forallb (λ p, fields_agree p.1 p.2) (zip (Fields d) (Fields s)) in
  let entry := (k, mkDisposition (Some s) (Some d)) in
  (length (Fields s) < length (Fields d) → agree = true →
   update_loop tx DefaultShepherd (entry :: l) r = ([], r, None)) ∧
  (length (Fields d) < length (Fields s) → agree = false →
   update_loop tx DefaultShepherd (entry :: l) r = ([], r, None)) ∧
  (length (Fields d) ≤ length (Fields s) → agree = true →
   update_loop tx DefaultShepherd (entry :: l) r = update_loop tx DefaultShepherd l r).
Proof.
  intros agree entry. rewrite !update_loop_phase. simpl.
  rewrite DefaultShepherd_Equals_closed, DefaultShepherd_Update_closed.
  unfold Equals_closed, Update_closed. fold agree.
  split_and!; intros Hlen ->; simpl.
  - by rewrite decide_False by lia.
  - by rewrite decide_False by lia.
  - by rewrite decide_True by lia.
Qed.

Lemma update_entry_field_count_mismatch_witness :
  update_loop QuotaTx DefaultShepherd
    [("a"%string, mkDisposition (Some short_rec) (Some long_rec))]
    (mkCollection [] 5 None 0 0 0)
  = ([], mkCollection [] 5 None 0 0 0, None).
Proof.
  apply (proj1 (update_entry_field_count_mismatch QuotaTx "a"%string short_rec long_rec []
                  (mkCollection [] 5 None 0 0 0))).
  - unfold short_rec, long_rec. simpl. lia.
  - reflexivity.
Defined.

(** * Further properties of the disposition map *)

Lemma filter_Pk_NoDup k l :
  NoDup (Pk <$> l) →
  filter (λ m, Pk m = k) l = [] ∨ ∃ m, filter (λ m, Pk m = k) l = [m].
Proof.
  induction l as [|m l IH]; [by left|]. rewrite fmap_cons, NoDup_cons. intros [Hm Hnd].
  rewrite filter_cons. case_decide as Hk; [|by apply IH].
  right. exists m. f_equal.
  destruct (filter (λ m', Pk m' = k) l) as [|m' rest] eqn:E; [done|].
  assert (m' ∈ filter (λ m', Pk m' = k) l) as Hin by (rewrite E; left).
  apply list_elem_of_filter in Hin as [Hk' Hin]. destruct Hm.
  apply list_elem_of_fmap. exists m'. split; [congruence|done].
Qed.

Lemma last_with_Pk_Permutation k l l' :
  NoDup (Pk <$> l) → l ≡ₚ l' → last_with_Pk k l = last_with_Pk k l'.
Proof.
  intros Hnd Hperm. unfold last_with_Pk.
  assert (filter (λ m, Pk m = k) l ≡ₚ filter (λ m, Pk m = k) l') as Hf by by rewrite Hperm.
  destruct (filter_Pk_NoDup k l Hnd) as [E|[m E]]; rewrite E in *.
  - apply Permutation_nil_l in Hf. by rewrite Hf.
  - apply Permutation_singleton_l in Hf. by rewrite Hf.
Qed.

(** X6.  Edge cases of disposition building.  Two empty sequences give
    the empty map.  With an empty stored sequence every entry pairs no
    stored record with the last desired record of its key, so every key
    is to add; with an empty desired sequence every entry holds the
    last stored record of its key alone, so every key is to delete. *)
Theorem dispositions_empty_sequences (seq : list Model) (k : string) :
  build_dispositions [] [] = ∅ ∧
  build_dispositions [] seq !! k
    = (λ d, mkDisposition None (Some d)) <$> last_with_Pk k seq ∧
  build_dispositions seq [] !! k
    = (λ s, mkDisposition (Some s) None) <$> last_with_Pk k seq ∧
  add_set (build_dispositions [] seq) = keys_of seq ∧
  delete_set (build_dispositions seq []) = keys_of seq.
Proof.
  split_and!.
  - done.
  - rewrite build_dispositions_lookup. by destruct (last_with_Pk k seq).
  - rewrite build_dispositions_lookup. by destruct (last_with_Pk k seq).
  - rewrite add_set_build. unfold keys_of at 2. simpl. set_solver.
  - rewrite delete_set_build. unfold keys_of at 2. simpl. set_solver.
Qed.

(** X7.  When no sequence yields a primary key twice, the order in
    which the sequences yield their records does not matter: permuted
    sequences build the same map. *)
Theorem dispositions_order_irrelevant (stored_seq stored_seq' desired_seq desired_seq'
    : list Model) :
  NoDup (Pk <$> stored_seq) → NoDup (Pk <$> desired_seq) →
  stored_seq ≡ₚ stored_seq' → desired_seq ≡ₚ desired_seq' →
  build_dispositions stored_seq desired_seq = build_dispositions stored_seq' desired_seq'.
Proof.
  intros Hs Hd Hps Hpd. apply map_eq. intros k. rewrite !build_dispositions_lookup.
  by rewrite (last_with_Pk_Permutation k _ _ Hs Hps), (last_with_Pk_Permutation k _ _ Hd Hpd).
Qed.

Lemma dispositions_order_irrelevant_witness :
  build_dispositions [rec1 "1" 10; rec1 "2" 20] [rec1 "2" 21; rec1 "3" 30]
  = build_dispositions [rec1 "2" 20; rec1 "1" 10] [rec1 "3" 30; rec1 "2" 21].
Proof.
  apply (dispositions_order_irrelevant [rec1 "1" 10; rec1 "2" 20] [rec1 "2" 20; rec1 "1" 10]
           [rec1 "2" 21; rec1 "3" 30] [rec1 "3" 30; rec1 "2" 21]).
  - apply (bool_decide_unpack _). vm_compute. exact I.
  - apply (bool_decide_unpack _). vm_compute. exact I.
  - apply perm_swap.
  - apply perm_swap.
Defined.

(** X8.  Every entry of the map is sound: the records it pairs were
    yielded by their sequences and have the primary key the entry is
    filed under, so a stored and a desired record are only ever paired
    when their keys are equal. *)
Theorem dispositions_entries_sound (stored_seq desired_seq : list Model)
    (k : string) (dpn : Disposition) :
  build_dispositions stored_seq desired_seq !! k = Some dpn →
  (∀ s, stored dpn = Some s → Pk s = k ∧ s ∈ stored_seq) ∧
  (∀ d, desired dpn = Some d → Pk d = k ∧ d ∈ desired_seq).
Proof.
  rewrite build_dispositions_lookup.
  destruct (last_with_Pk k stored_seq) as [s|] eqn:Hs;
    destruct (last_with_Pk k desired_seq) as [d|] eqn:Hd; simpl; intros [= <-]; simpl;
    split; intros ? [= <-];
    first [by apply last_with_Pk_Some in Hs | by apply last_with_Pk_Some in Hd].
Qed.

Lemma dispositions_entries_sound_witness :
  (∀ s, Some (rec1 "2" 20) = Some s → Pk s = "2"%string ∧ s ∈ [rec1 "1" 10; rec1 "2" 20]) ∧
  (∀ d, Some (rec1 "2" 21) = Some d → Pk d = "2"%string ∧ d ∈ [rec1 "2" 21; rec1 "3" 30]).
Proof.
  apply (dispositions_entries_sound [rec1 "1" 10; rec1 "2" 20] [rec1 "2" 21; rec1 "3" 30]
           "2"%string (mkDisposition (Some (rec1 "2" 20)) (Some (rec1 "2" 21)))).
  reflexivity.
Defined.

(** * Further properties of the phases *)

(** The three public methods are their phase run on the map built from
    the receiver's stored sequence, which is drained. *)
Lemma public_methods_phase {St : Type} (tx : TxOps St) rng desired_seq (r : Collection St) :
  let mp := build_dispositions (Stored r) desired_seq in
  let shepherd := default DefaultShepherd (OptShepherd r) in
  Collection_Add tx rng desired_seq r = phase_loop tx shepherd PhaseAdd (rng mp) (drained r) ∧
  Collection_Update tx rng desired_seq r
    = phase_loop tx shepherd PhaseUpdate (rng mp) (drained r) ∧
  Collection_Delete tx rng desired_seq r
    = phase_loop tx shepherd PhaseDelete (rng mp) (drained r).
Proof.
  intros mp shepherd.
  unfold Collection_Add, Collection_Update, Collection_Delete, mbind, M_bind,
    Collection_dispositions, Collection_add, Collection_update, Collection_delete.
  fold mp. fold (drained r). simpl. fold shepherd.
  rewrite (add_loop_phase tx shepherd), update_loop_phase, (delete_loop_phase tx shepherd).
  split_and!; by destruct (phase_loop _ _ _ _ _) as [[t r'] o].
Qed.

Lemma phase_loop_success {St : Type} (tx : TxOps St) shepherd p l : ∀ (r r' : Collection St) t,
  phase_loop tx shepherd p l r = (t, r', Some None) → t = planned_calls shepherd p l.
Proof.
  induction l as [|[k dpn] l IH]; intros r r' t; simpl.
  - by intros [= <- _].
  - unfold planned_calls. simpl. fold (planned_calls shepherd p l).
    destruct (entry_action shepherd p dpn) as [[c|]|]; simpl; [| apply IH | done].
    destruct (Tx_apply tx c (Tx r)) as [s [e|]]; [done|].
    destruct (phase_loop tx shepherd p l (after_call p s r)) as [[t1 r1] o1] eqn:Hrec.
    intros [= <- <- ->]. f_equal. by eapply IH.
Qed.

Lemma elem_of_planned_calls shepherd p rng (mp : Dispositions) c :
  Range_ok rng →
  c ∈ planned_calls shepherd p (rng mp) ↔
  ∃ k dpn, mp !! k = Some dpn ∧ entry_action shepherd p dpn = Some (Some c).
Proof.
  intros Hok. unfold planned_calls. rewrite list_elem_of_omap. split.
  - intros ([k dpn] & Hin & Hc). apply (Range_ok_elem_of rng) in Hin; [|done].
    exists k, dpn. split; [done|]. simpl in Hc.
    by destruct (entry_action shepherd p dpn) as [[c'|]|]; simplify_eq/=.
  - intros (k & dpn & Hk & Hc). exists (k, dpn). split.
    + by apply (Range_ok_elem_of rng).
    + simpl. by rewrite Hc.
Qed.

(** The number of entries a range visits that pass a test. *)
Lemma length_filter_range test rng (mp : Dispositions) :
  Range_ok rng →
  length (filter (λ kd, test kd.2 = true) (rng mp)) = size (keys_where test mp).
Proof.
  intros Hok.
  set (l := filter (λ kd : string * Disposition, test kd.2 = true) (rng mp)).
  assert (NoDup l.*1) as Hnd.
  { apply (sublist_NoDup l.*1 (rng mp).*1); [by apply Range_ok_NoDup|].
    apply fmap_sublist, sublist_filter. }
  rewrite <- (length_fmap fst l), <- (size_list_to_set (C := gset string)) by done.
  f_equal. apply set_eq. intros k.
  rewrite elem_of_list_to_set, elem_of_keys_where, list_elem_of_fmap. split.
  - intros ([k' dpn] & -> & Hin). apply list_elem_of_filter in Hin as [Ht Hin].
    apply (Range_ok_elem_of rng) in Hin; [|done]. eauto.
  - intros (dpn & Hk & Ht). exists (k, dpn). split; [done|].
    apply list_elem_of_filter. split; [done|]. by apply (Range_ok_elem_of rng).
Qed.

Lemma planned_calls_length_le shepherd p test l :
  (∀ dpn c, entry_action shepherd p dpn = Some (Some c) → test dpn = true) →
  length (planned_calls shepherd p l) ≤ length (filter (λ kd, test kd.2 = true) l).
Proof.
  intros Htest. unfold planned_calls, omap. induction l as [|[k dpn] l IH]; [done|].
  rewrite filter_cons. simpl.
  destruct (entry_action shepherd p dpn) as [[c|]|] eqn:Hact; simpl.
  - rewrite decide_True by apply (Htest dpn c Hact). simpl. lia.
  - case_decide; simpl; lia.
  - case_decide; simpl; lia.
Qed.

Lemma planned_calls_length shepherd p test l :
  (∀ dpn, is_Some (default None (entry_action shepherd p dpn)) ↔ test dpn = true) →
  length (planned_calls shepherd p l) = length (filter (λ kd, test kd.2 = true) l).
Proof.
  intros Htest. unfold planned_calls, omap. induction l as [|[k dpn] l IH]; [done|].
  rewrite filter_cons. simpl.
  specialize (Htest dpn).
  destruct (default None (entry_action shepherd p dpn)) as [c|]; simpl.
  - rewrite decide_True by (apply Htest; by eexists). simpl. by rewrite IH.
  - rewrite decide_False; [done|]. intros Ht. apply Htest in Ht. by destruct Ht.
Qed.

Lemma entry_action_add shepherd dpn :
  is_Some (default None (entry_action shepherd PhaseAdd dpn)) ↔ to_add dpn = true.
Proof.
  destruct dpn as [[s|] [d|]]; simpl; split; try done; try (by intros [? ?]);
    by eexists.
Qed.

Lemma entry_action_delete shepherd dpn :
  is_Some (default None (entry_action shepherd PhaseDelete dpn)) ↔ to_delete dpn = true.
Proof.
  destruct dpn as [[s|] [d|]]; simpl; split; try done; try (by intros [? ?]);
    by eexists.
Qed.

Lemma entry_action_update shepherd dpn c :
  entry_action shepherd PhaseUpdate dpn = Some (Some c) → to_update dpn = true.
Proof. by destruct dpn as [[s|] [d|]]. Qed.

Lemma planned_add_length shepherd rng stored_seq desired_seq :
  Range_ok rng →
  length (planned_calls shepherd PhaseAdd (rng (build_dispositions stored_seq desired_seq)))
  = size (keys_of desired_seq ∖ keys_of stored_seq).
Proof.
  intros Hok. rewrite (planned_calls_length _ _ to_add) by apply entry_action_add.
  rewrite length_filter_range by done. fold (add_set (build_dispositions stored_seq desired_seq)).
  by rewrite add_set_build.
Qed.

Lemma planned_delete_length shepherd rng stored_seq desired_seq :
  Range_ok rng →
  length (planned_calls shepherd PhaseDelete (rng (build_dispositions stored_seq desired_seq)))
  = size (keys_of stored_seq ∖ keys_of desired_seq).
Proof.
  intros Hok. rewrite (planned_calls_length _ _ to_delete) by apply entry_action_delete.
  rewrite length_filter_range by done.
  fold (delete_set (build_dispositions stored_seq desired_seq)).
  by rewrite delete_set_build.
Qed.

Lemma planned_update_length shepherd rng stored_seq desired_seq :
  Range_ok rng →
  length (planned_calls shepherd PhaseUpdate (rng (build_dispositions stored_seq desired_seq)))
  ≤ size (keys_of stored_seq ∩ keys_of desired_seq).
Proof.
  intros Hok. rewrite <- update_set_build. unfold update_set.
  rewrite <- (length_filter_range to_update rng) by done.
  apply planned_calls_length_le. apply entry_action_update.
Qed.

Lemma drained_id {St : Type} (r : Collection St) : Stored r = [] → drained r = r.
Proof. destruct r. simpl. by intros ->. Qed.

(** A successful run of a phase: its calls are the planned ones, its
    counter grew by their number and the rest of the receiver is kept. *)
Lemma phase_loop_success_report {St : Type} (tx : TxOps St) shepherd p l
    (r r' : Collection St) t :
  phase_loop tx shepherd p l r = (t, r', Some None) →
  t = planned_calls shepherd p l ∧
  Stored r' = Stored r ∧ OptShepherd r' = OptShepherd r ∧
  counter p r' = Nat.iter (length t) incr (counter p r) ∧
  ∀ q, q ≠ p → counter q r' = counter q r.
Proof.
  intros Hrun. split; [by eapply phase_loop_success|].
  by destruct (phase_loop_report tx _ _ _ _ _ _ _ Hrun) as (_ & ? & ? & ? & _ & ?).
Qed.

(** X9.  When [Add] returns no error it has inserted exactly the
    desired records that are the last of their key in the desired
    sequence and whose key no stored record has, once each: as many
    calls as there are desired keys that are not stored keys.  [Added]
    was incremented once per call, [Updated] and [Deleted] are
    untouched. *)
Theorem Add_inserts_missing_keys {St : Type} (tx : TxOps St) (rng : Range)
    (desired_seq : list Model) (r r' : Collection St) (t : list TxCall) :
  Range_ok rng →
  Collection_Add tx rng desired_seq r = (t, r', Some None) →
  (∀ c, c ∈ t ↔ ∃ d, c = TxInsert d ∧ last_with_Pk (Pk d) desired_seq = Some d ∧
                     Pk d ∉ keys_of (Stored r)) ∧
  length t = size (keys_of desired_seq ∖ keys_of (Stored r)) ∧
  Added r' = Nat.iter (length t) incr (Added r) ∧
  Updated r' = Updated r ∧ Deleted r' = Deleted r.
Proof.
  intros Hok. rewrite (proj1 (public_methods_phase tx rng desired_seq r)). intros Hrun.
  destruct (phase_loop_success_report _ _ _ _ _ _ _ Hrun) as (-> & _ & _ & Hcnt & Hq).
  split_and!.
  - intros c. rewrite elem_of_planned_calls by done. split.
    + intros (k & dpn & Hk & Hact). rewrite build_dispositions_lookup in Hk.
      destruct dpn as [[s|] [d|]]; simplify_eq/=. exists d.
      destruct (last_with_Pk k (Stored r)) as [s|] eqn:Hs,
               (last_with_Pk k desired_seq) as [d'|] eqn:Hd; simplify_eq/=.
      destruct (last_with_Pk_Some _ _ _ Hd) as [<- _].
      split_and!; [done..|]. by apply last_with_Pk_None.
    + intros (d & -> & Hd & Hs). apply last_with_Pk_None in Hs.
      exists (Pk d), (mkDisposition None (Some d)). split; [|done].
      by rewrite build_dispositions_lookup, Hs, Hd.
  - by apply planned_add_length.
  - apply Hcnt.
  - by apply (Hq PhaseUpdate).
  - by apply (Hq PhaseDelete).
Qed.

Lemma Add_inserts_missing_keys_witness :
  length [TxInsert (rec1 "4" 40)] = size (keys_of desired3 ∖ keys_of (stored_of store3)).
Proof.
  destruct (Add_inserts_missing_keys QuotaTx map_to_list desired3
              (mkCollection (stored_of store3) 5 None 0 0 0)
              (mkCollection [] 4 None 1 0 0) [TxInsert (rec1 "4" 40)]) as (_ & H & _).
  - intros mp. reflexivity.
  - reflexivity.
  - exact H.
Defined.

(** X10.  When [Delete] returns no error it has deleted exactly the
    stored records that are the last of their key in the stored
    sequence and whose key no desired record has, once each: as many
    calls as there are stored keys that are not desired keys.
    [Deleted] was incremented once per call, [Added] and [Updated] are
    untouched. *)
Theorem Delete_removes_undesired_keys {St : Type} (tx : TxOps St) (rng : Range)
    (desired_seq : list Model) (r r' : Collection St) (t : list TxCall) :
  Range_ok rng →
  Collection_Delete tx rng desired_seq r = (t, r', Some None) →
  (∀ c, c ∈ t ↔ ∃ s, c = TxDelete s ∧ last_with_Pk (Pk s) (Stored r) = Some s ∧
                     Pk s ∉ keys_of desired_seq) ∧
  length t = size (keys_of (Stored r) ∖ keys_of desired_seq) ∧
  Deleted r' = Nat.iter (length t) incr (Deleted r) ∧
  Added r' = Added r ∧ Updated r' = Updated r.
Proof.
  intros Hok. rewrite (proj2 (proj2 (public_methods_phase tx rng desired_seq r))).
  intros Hrun.
  destruct (phase_loop_success_report _ _ _ _ _ _ _ Hrun) as (-> & _ & _ & Hcnt & Hq).
  split_and!.
  - intros c. rewrite elem_of_planned_calls by done. split.
    + intros (k & dpn & Hk & Hact). rewrite build_dispositions_lookup in Hk.
      destruct dpn as [[s|] [d|]]; simplify_eq/=. exists s.
      destruct (last_with_Pk k (Stored r)) as [s'|] eqn:Hs,
               (last_with_Pk k desired_seq) as [d'|] eqn:Hd; simplify_eq/=.
      destruct (last_with_Pk_Some _ _ _ Hs) as [<- _].
      split_and!; [done..|]. by apply last_with_Pk_None.
    + intros (s & -> & Hs & Hd). apply last_with_Pk_None in Hd.
      exists (Pk s), (mkDisposition (Some s) None). split; [|done].
      by rewrite build_dispositions_lookup, Hs, Hd.
  - by apply planned_delete_length.
  - apply Hcnt.
  - by apply (Hq PhaseAdd).
  - by apply (Hq PhaseUpdate).
Qed.

Lemma Delete_removes_undesired_keys_witness :
  length [TxDelete (rec1 "1" 10)] = size (keys_of (stored_of store3) ∖ keys_of desired3).
Proof.
  destruct (Delete_removes_undesired_keys QuotaTx map_to_list desired3
              (mkCollection (stored_of store3) 5 None 0 0 0)
              (mkCollection [] 4 None 0 0 1) [TxDelete (rec1 "1" 10)]) as (_ & H & _).
  - intros mp. reflexivity.
  - reflexivity.
  - exact H.
Defined.

(** X11.  When [Update] returns no error it has passed to the
    transaction's update exactly the merged stored records of the keys
    that both sequences have and whose last records the shepherd in use
    (the configured one, else the default one) did not find equal,
    desired first: at most one call per key of both sequences.
    [Updated] was incremented once per call, [Added] and [Deleted] are
    untouched. *)
Theorem Update_persists_merged_records {St : Type} (tx : TxOps St) (rng : Range)
    (desired_seq : list Model) (r r' : Collection St) (t : list TxCall) :
  let shepherd := default DefaultShepherd (OptShepherd r) in
  Range_ok rng →
  Collection_Update tx rng desired_seq r = (t, r', Some None) →
  (∀ c, c ∈ t ↔ ∃ k s d s',
          last_with_Pk k (Stored r) = Some s ∧ last_with_Pk k desired_seq = Some d ∧
          Equals shepherd d s = Some false ∧ Update shepherd s d = Some s' ∧
          c = TxUpdate s') ∧
  length t ≤ size (keys_of (Stored r) ∩ keys_of desired_seq) ∧
  Updated r' = Nat.iter (length t) incr (Updated r) ∧
  Added r' = Added r ∧ Deleted r' = Deleted r.
Proof.
  intros shepherd Hok.
  rewrite (proj1 (proj2 (public_methods_phase tx rng desired_seq r))). fold shepherd.
  intros Hrun.
  destruct (phase_loop_success_report _ _ _ _ _ _ _ Hrun) as (-> & _ & _ & Hcnt & Hq).
  split_and!.
  - intros c. rewrite elem_of_planned_calls by done. split.
    + intros (k & dpn & Hk & Hact). rewrite build_dispositions_lookup in Hk.
      destruct dpn as [[s|] [d|]]; simplify_eq/=. exists k, s, d.
      destruct (last_with_Pk k (Stored r)) as [s0|] eqn:Hs,
               (last_with_Pk k desired_seq) as [d0|] eqn:Hd; simplify_eq/=.
      destruct (Equals shepherd d s) as [[|]|]; simplify_eq/=.
      destruct (Update shepherd s d) as [s'|]; simplify_eq/=. by exists s'.
    + intros (k & s & d & s' & Hs & Hd & Heq & Hup & ->).
      exists k, (mkDisposition (Some s) (Some d)). split.
      * by rewrite build_dispositions_lookup, Hs, Hd.
      * simpl. by rewrite Heq, Hup.
  - by apply planned_update_length.
  - apply Hcnt.
  - by apply (Hq PhaseAdd).
  - by apply (Hq PhaseDelete).
Qed.

Lemma Update_persists_merged_records_witness :
  length [TxUpdate (rec1 "3" 31)] ≤ size (keys_of (stored_of store3) ∩ keys_of desired3).
Proof.
  destruct (Update_persists_merged_records QuotaTx map_to_list desired3
              (mkCollection (stored_of store3) 5 None 0 0 0)
              (mkCollection [] 4 None 0 1 0) [TxUpdate (rec1 "3" 31)]) as (_ & H & _).
  - intros mp. reflexivity.
  - reflexivity.
  - exact H.
Defined.

(** The counters after a [Reconcile] that returned no error. *)
Lemma Reconcile_success_counts {St : Type} (tx : TxOps St) (rd ra ru : Range)
    (desired_seq : list Model) (r r' : Collection St) (t : list TxCall) :
  Range_ok rd → Range_ok ra → Range_ok ru →
  Collection_Reconcile tx rd ra ru desired_seq r = (t, r', Some None) →
  Deleted r' =
    Nat.iter (size (keys_of (Stored r) ∖ keys_of desired_seq)) incr (Deleted r) ∧
  Added r' =
    Nat.iter (size (keys_of desired_seq ∖ keys_of (Stored r))) incr (Added r) ∧
  ∃ n, n ≤ size (keys_of (Stored r) ∩ keys_of desired_seq) ∧
       Updated r' = Nat.iter n incr (Updated r) ∧
       length t = size (keys_of (Stored r) ∖ keys_of desired_seq)
                  + size (keys_of desired_seq ∖ keys_of (Stored r)) + n.
Proof.
  intros Hrd Hra Hru. rewrite Reconcile_unfold.
  destruct (phase_loop tx _ PhaseDelete _ (drained r)) as [[td r1] od] eqn:Hd.
  destruct od as [[e|]|]; try done.
  destruct (phase_loop tx _ PhaseAdd _ r1) as [[ta r2] oa] eqn:Ha.
  destruct oa as [[e|]|]; try done.
  destruct (phase_loop tx _ PhaseUpdate _ r2) as [[tu r3] ou] eqn:Hu.
  intros [= <- <- ->].
  destruct (phase_loop_success_report _ _ _ _ _ _ _ Hd) as (-> & _ & _ & Hcd & Hqd).
  destruct (phase_loop_success_report _ _ _ _ _ _ _ Ha) as (-> & _ & _ & Hca & Hqa).
  destruct (phase_loop_success_report _ _ _ _ _ _ _ Hu) as (-> & _ & _ & Hcu & Hqu).
  rewrite planned_delete_length in Hcd by done.
  rewrite planned_add_length in Hca by done.
  simpl in Hcd, Hca, Hcu.
  assert (Deleted r3 = Deleted r1) as HD.
  { transitivity (Deleted r2); [apply (Hqu PhaseDelete) | apply (Hqa PhaseDelete)]; done. }
  assert (Added r3 = Added r2) as HA by by apply (Hqu PhaseAdd).
  assert (Added r1 = Added r) as HA' by by apply (Hqd PhaseAdd).
  assert (Updated r2 = Updated r) as HU.
  { transitivity (Updated r1); [apply (Hqa PhaseUpdate) | apply (Hqd PhaseUpdate)]; done. }
  split_and!.
  - by rewrite HD, Hcd.
  - by rewrite HA, Hca, HA'.
  - eexists. split_and!.
    + by apply (planned_update_length (default DefaultShepherd (OptShepherd r)) ru).
    + by rewrite Hcu, HU.
    + rewrite !length_app.
      rewrite planned_delete_length, planned_add_length by done. lia.
Qed.

(** X12.  Counter accuracy.  When [Reconcile] returns no error,
    [Deleted] has been incremented once for every stored key that is
    not a desired key, [Added] once for every desired key that is not a
    stored key, and [Updated] at most once for every key of both; the
    three increments add up to the number of transaction calls made. *)
Theorem Reconcile_counters {St : Type} (tx : TxOps St) (rd ra ru : Range)
    (desired_seq : list Model) (r r' : Collection St) (t : list TxCall) :
  Range_ok rd → Range_ok ra → Range_ok ru →
  Collection_Reconcile tx rd ra ru desired_seq r = (t, r', Some None) →
  Deleted r' =
    Nat.iter (size (keys_of (Stored r) ∖ keys_of desired_seq)) incr (Deleted r) ∧
  Added r' =
    Nat.iter (size (keys_of desired_seq ∖ keys_of (Stored r))) incr (Added r) ∧
  ∃ n, n ≤ size (keys_of (Stored r) ∩ keys_of desired_seq) ∧
       Updated r' = Nat.iter n incr (Updated r) ∧
       length t = size (keys_of (Stored r) ∖ keys_of desired_seq)
                  + size (keys_of desired_seq ∖ keys_of (Stored r)) + n.
Proof. apply Reconcile_success_counts. Qed.

Lemma Reconcile_counters_witness :
  1%Z = Nat.iter (size (keys_of (stored_of store3) ∖ keys_of desired3)) incr 0%Z ∧
  1%Z = Nat.iter (size (keys_of desired3 ∖ keys_of (stored_of store3))) incr 0%Z.
Proof.
  destruct (Reconcile_counters QuotaTx map_to_list map_to_list map_to_list desired3
              (mkCollection (stored_of store3) 5 None 0 0 0)
              (mkCollection [] 2 None 1 1 1)
              [TxDelete (rec1 "1" 10); TxInsert (rec1 "4" 40); TxUpdate (rec1 "3" 31)])
    as (H1 & H2 & _).
  - intros mp. reflexivity.
  - intros mp. reflexivity.
  - intros mp. reflexivity.
  - reflexivity.
  - exact (conj H1 H2).
Defined.

Lemma Reconcile_Stored {St : Type} (tx : TxOps St) rd ra ru desired_seq
    (r r' : Collection St) t o :
  Collection_Reconcile tx rd ra ru desired_seq r = (t, r', o) → Stored r' = [].
Proof.
  rewrite Reconcile_unfold.
  destruct (phase_loop tx _ PhaseDelete _ (drained r)) as [[td r1] od] eqn:Hd.
  destruct (phase_loop_report _ _ _ _ _ _ _ _ Hd) as (_ & HSd & _). simpl in HSd.
  destruct (phase_loop tx _ PhaseAdd _ r1) as [[ta r2] oa] eqn:Ha.
  destruct (phase_loop_report _ _ _ _ _ _ _ _ Ha) as (_ & HSa & _).
  destruct (phase_loop tx _ PhaseUpdate _ r2) as [[tu r3] ou] eqn:Hu.
  destruct (phase_loop_report _ _ _ _ _ _ _ _ Hu) as (_ & HSu & _).
  destruct od as [[e|]|]; [by intros [= _ <- _]| |by intros [= _ <- _]].
  destruct oa as [[e|]|]; [intros [= _ <- _]; congruence| |intros [= _ <- _]; congruence].
  intros [= _ <- _]. congruence.
Qed.

(** On a receiver whose stored iterator is drained every entry is to
    add: the delete and the update phase have nothing to do. *)
Lemma phase_loop_no_stored {St : Type} (tx : TxOps St) shepherd p rng desired_seq
    (r : Collection St) :
  Range_ok rng → p ≠ PhaseAdd →
  phase_loop tx shepherd p (rng (build_dispositions [] desired_seq)) r = ([], r, Some None).
Proof.
  intros Hok Hp. apply phase_loop_idle. intros k dpn Hin.
  apply (Range_ok_elem_of rng) in Hin; [|done].
  rewrite build_dispositions_lookup in Hin. simpl in Hin.
  destruct (last_with_Pk k desired_seq); simplify_eq/=. by destruct p.
Qed.

(** X13.  [Reconcile] leaves the receiver's stored iterator drained,
    whatever its outcome.  On the receiver as it is left, with the
    stored iterator not set anew, [Delete] and [Update] make no
    transaction call and return no error, and a further [Reconcile] is
    but an [Add]: it takes every desired key for missing. *)
Theorem Reconcile_drains_stored {St : Type} (tx : TxOps St) (rd ra ru rd' ra' ru' : Range)
    (desired_seq desired_seq' : list Model) (r r' : Collection St)
    (t : list TxCall) (o : option error) :
  Range_ok rd' → Range_ok ru' →
  Collection_Reconcile tx rd ra ru desired_seq r = (t, r', o) →
  Stored r' = [] ∧
  Collection_Delete tx rd' desired_seq' r' = ([], r', Some None) ∧
  Collection_Update tx ru' desired_seq' r' = ([], r', Some None) ∧
  Collection_Reconcile tx rd' ra' ru' desired_seq' r' = Collection_Add tx ra' desired_seq' r'.
Proof.
  intros Hrd Hru Hrun. assert (HS := Reconcile_Stored _ _ _ _ _ _ _ _ _ Hrun).
  split; [done|].
  rewrite Reconcile_unfold.
  destruct (public_methods_phase tx rd' desired_seq' r') as (_ & _ & ->).
  destruct (public_methods_phase tx ru' desired_seq' r') as (_ & -> & _).
  destruct (public_methods_phase tx ra' desired_seq' r') as (-> & _ & _).
  rewrite HS, (drained_id r' HS).
  rewrite !phase_loop_no_stored by done. split_and!; [done..|].
  destruct (phase_loop tx _ PhaseAdd _ r') as [[ta r2] oa].
  destruct oa as [[e|]|]; try done.
  rewrite phase_loop_no_stored by done. by rewrite app_nil_r.
Qed.

Lemma Reconcile_drains_stored_witness :
  Collection_Delete QuotaTx map_to_list desired3 (mkCollection [] 2 None 1 1 1)
  = ([], mkCollection [] 2 None 1 1 1, Some None).
Proof.
  destruct (Reconcile_drains_stored QuotaTx map_to_list map_to_list map_to_list
              map_to_list map_to_list map_to_list desired3 desired3
              (mkCollection (stored_of store3) 5 None 0 0 0)
              (mkCollection [] 2 None 1 1 1)
              [TxDelete (rec1 "1" 10); TxInsert (rec1 "4" 40); TxUpdate (rec1 "3" 31)]
              (Some None)) as (_ & H & _).
  - intros mp. reflexivity.
  - intros mp. reflexivity.
  - reflexivity.
  - exact H.
Defined.

(** * Further properties of reconciling against a faithful store *)

Lemma keys_of_store (st : gmap string Model) stored_seq :
  store_ok st → stored_seq ≡ₚ stored_of st → keys_of stored_seq = dom st.
Proof.
  intros Hok Hperm. apply set_eq. intros k.
  by rewrite <- last_with_Pk_is_Some, (last_with_Pk_store st), elem_of_dom.
Qed.

Lemma keys_of_nil : keys_of [] = ∅.
Proof. done. Qed.

Lemma iter_incr_0 (c : Z) n : n ≤ 0 → Nat.iter n incr c = c.
Proof. intros Hn. by replace n with 0 by lia. Qed.

(** X14.  Convergence.  On a faithful store whose records the shepherd
    in use settles against the desired records of their keys, and with
    every new desired record equal to itself for that shepherd,
    [Reconcile] returns no error and leaves a store whose keys are
    exactly the desired keys, each filed record having its key and
    comparing equal (desired first) to the last desired record of that
    key. *)
Theorem Reconcile_converges (shepherd_opt : option Shepherd) (st : gmap string Model)
    (desired_seq stored_seq : list Model) (rd ra ru : Range) (a u dl : Z) :
  Range_ok rd → Range_ok ra → Range_ok ru →
  store_ok st →
  stored_seq ≡ₚ stored_of st →
  (∀ k s d, st !! k = Some s → last_with_Pk k desired_seq = Some d →
            settles (default DefaultShepherd shepherd_opt) s d) →
  (∀ k d, st !! k = None → last_with_Pk k desired_seq = Some d →
          Equals (default DefaultShepherd shepherd_opt) d d = Some true) →
  ∃ t r1,
    Collection_Reconcile MemTx rd ra ru desired_seq
      (mkCollection stored_seq st shepherd_opt a u dl) = (t, r1, Some None) ∧
    store_ok (Tx r1) ∧
    dom (Tx r1) = keys_of desired_seq ∧
    ∀ k x, Tx r1 !! k = Some x →
      ∃ d, last_with_Pk k desired_seq = Some d ∧
           Equals (default DefaultShepherd shepherd_opt) d x = Some true.
Proof.
  intros Hrd Hra Hru Hstore Hperm Hsettles Hrefl.
  destruct (Reconcile_faithful shepherd_opt st desired_seq Hstore Hsettles
              rd ra ru stored_seq a u dl Hrd Hra Hru Hperm)
    as (t & r1 & Hrun & _ & _ & Hst1).
  assert (Hset := reconciled_settled shepherd_opt st desired_seq Hstore Hsettles Hrefl).
  exists t, r1. split_and!; [done|..].
  - intros k x Hx. specialize (Hset k). rewrite <- Hst1, Hx in Hset.
    by destruct (last_with_Pk k desired_seq) as [d|]; [destruct Hset|].
  - apply set_eq. intros k. rewrite elem_of_dom, <- last_with_Pk_is_Some.
    specialize (Hset k). rewrite <- Hst1 in Hset.
    destruct (Tx r1 !! k), (last_with_Pk k desired_seq); done.
  - intros k x Hx. specialize (Hset k). rewrite <- Hst1, Hx in Hset.
    destruct (last_with_Pk k desired_seq) as [d|]; [|done]. exists d. by destruct Hset.
Qed.

Lemma Reconcile_converges_witness :
  ∃ t r1,
    Collection_Reconcile MemTx map_to_list map_to_list map_to_list desired3
      (mkCollection (stored_of store3) store3 None 0 0 0) = (t, r1, Some None) ∧
    store_ok (Tx r1) ∧
    dom (Tx r1) = keys_of desired3 ∧
    ∀ k x, Tx r1 !! k = Some x →
      ∃ d, last_with_Pk k desired3 = Some d ∧
           Equals (default DefaultShepherd None) d x = Some true.
Proof.
  apply (Reconcile_converges None store3 desired3 (stored_of store3)
           map_to_list map_to_list map_to_list 0 0 0).
  - intros mp. reflexivity.
  - intros mp. reflexivity.
  - intros mp. reflexivity.
  - unfold store_ok. apply (bool_decide_unpack _). vm_compute. exact I.
  - reflexivity.
  - intros k s d Hs Hd. apply DefaultShepherd_settles.
    apply (same_type_pairs store3 desired3 eq_refl k s d Hs Hd).
  - intros k d _ _. apply DefaultShepherd_Equals_refl.
Defined.

(** X15.  With the default shepherd and a faithful store whose records
    are of the type of the desired records of their keys, [Reconcile]
    returns no error and leaves under every desired key a record with
    that key: the desired record itself when the key was not stored,
    else the stored record in which each ignored field is as it was and
    each other field is the desired record's field; a key that is not
    desired is left with no record. *)
Theorem Reconcile_default_result (st : gmap string Model)
    (desired_seq stored_seq : list Model) (rd ra ru : Range) (a u dl : Z) :
  Range_ok rd → Range_ok ra → Range_ok ru →
  store_ok st →
  stored_seq ≡ₚ stored_of st →
  (∀ k s d, st !! k = Some s → last_with_Pk k desired_seq = Some d →
            same_type s d = true) →
  ∃ t r1,
    Collection_Reconcile MemTx rd ra ru desired_seq
      (mkCollection stored_seq st None a u dl) = (t, r1, Some None) ∧
    ∀ k,
      match last_with_Pk k desired_seq with
      | None => Tx r1 !! k = None
      | Some d =>
          ∃ x, Tx r1 !! k = Some x ∧ Pk x = k ∧
            match st !! k with
            | None => x = d
            | Some s =>
                length (Fields x) = length (Fields s) ∧
                ∀ i fs fd, Fields s !! i = Some fs → Fields d !! i = Some fd →
                  Fields x !! i = Some (if DefaultShepherd_ignored fs then fs else fd)
            end
      end.
Proof.
  intros Hrd Hra Hru Hstore Hperm Hty.
  assert (∀ k s d, st !! k = Some s → last_with_Pk k desired_seq = Some d →
            settles (default DefaultShepherd None) s d) as Hsettles.
  { intros k s d Hs Hd. apply DefaultShepherd_settles. by eapply Hty. }
  destruct (Reconcile_faithful None st desired_seq Hstore Hsettles
              rd ra ru stored_seq a u dl Hrd Hra Hru Hperm)
    as (t & r1 & Hrun & _ & _ & Hst1).
  exists t, r1. split; [done|]. intros k. rewrite Hst1.
  destruct (last_with_Pk k desired_seq) as [d|] eqn:Hd; [|by destruct (st !! k)].
  destruct (st !! k) as [s|] eqn:Hs; simpl.
  - assert (Hsd := Hty k s d Hs Hd). unfold same_type in Hsd.
    assert (Hlen := same_fields_type_length _ _ Hsd).
    assert (Pk s = k) as HPk by by apply Hstore.
    assert (∀ i fs fd, Fields s !! i = Some fs → Fields d !! i = Some fd →
              same_field_type fs fd = true) as Hft.
    { intros i fs fd. by apply same_fields_type_lookup. }
    destruct (DefaultShepherd_Equals d s) as [[|]|] eqn:Heq.
    + exists s. split_and!; [done..|]. intros i fs fd Hfs Hfd. rewrite Hfs. f_equal.
      destruct (DefaultShepherd_ignored fs) eqn:Hig; [done|].
      apply DefaultShepherd_Equals_true in Heq as [_ Heq].
      specialize (Heq i fd fs Hfd Hfs). rewrite fields_agree_true in Heq.
      assert (Hft' := Hft i fs fd Hfs Hfd).
      rewrite <- (same_field_type_ignored _ _ Hft') in Heq.
      rewrite <- (same_field_type_merge _ _ Hft'), Heq by done. by rewrite Value_Set_same.
    + destruct (DefaultShepherd_Update_Some s d) as (fields' & -> & Hl & Hin); [lia|].
      eexists. split_and!; [done..|]. simpl. intros i fs fd Hfs Hfd.
      rewrite (Hin i fs fd Hfs Hfd). f_equal. unfold merge_field.
      destruct (DefaultShepherd_ignored fs); [done|]. apply same_field_type_merge. eauto.
    + rewrite DefaultShepherd_Equals_closed in Heq. unfold Equals_closed in Heq.
      rewrite decide_True in Heq by lia. by destruct (forallb _ _).
  - exists d. split_and!; [done| |done]. by apply last_with_Pk_Some in Hd as [? _].
Qed.

Lemma Reconcile_default_result_witness :
  ∃ t r1,
    Collection_Reconcile MemTx map_to_list map_to_list map_to_list desired3
      (mkCollection (stored_of store3) store3 None 0 0 0) = (t, r1, Some None) ∧
    ∀ k,
      match last_with_Pk k desired3 with
      | None => Tx r1 !! k = None
      | Some d =>
          ∃ x, Tx r1 !! k = Some x ∧ Pk x = k ∧
            match store3 !! k with
            | None => x = d
            | Some s =>
                length (Fields x) = length (Fields s) ∧
                ∀ i fs fd, Fields s !! i = Some fs → Fields d !! i = Some fd →
                  Fields x !! i = Some (if DefaultShepherd_ignored fs then fs else fd)
            end
      end.
Proof.
  apply (Reconcile_default_result store3 desired3 (stored_of store3)
           map_to_list map_to_list map_to_list 0 0 0).
  - intros mp. reflexivity.
  - intros mp. reflexivity.
  - intros mp. reflexivity.
  - unfold store_ok. apply (bool_decide_unpack _). vm_compute. exact I.
  - reflexivity.
  - apply (same_type_pairs store3 desired3 eq_refl).
Defined.

(** X16.  An empty desired sequence empties a faithful store:
    [Reconcile] returns no error, makes one call per stored record,
    leaves no record, has incremented [Deleted] once per stored record
    and has left [Added] and [Updated] as they were. *)
Theorem Reconcile_empty_desired (shepherd_opt : option Shepherd) (st : gmap string Model)
    (stored_seq : list Model) (rd ra ru : Range) (a u dl : Z) :
  Range_ok rd → Range_ok ra → Range_ok ru →
  store_ok st →
  stored_seq ≡ₚ stored_of st →
  ∃ t r1,
    Collection_Reconcile MemTx rd ra ru []
      (mkCollection stored_seq st shepherd_opt a u dl) = (t, r1, Some None) ∧
    Tx r1 = ∅ ∧ length t = size st ∧
    Deleted r1 = Nat.iter (size st) incr dl ∧ Added r1 = a ∧ Updated r1 = u.
Proof.
  intros Hrd Hra Hru Hstore Hperm.
  assert (∀ k s d, st !! k = Some s → last_with_Pk k [] = Some d →
            settles (default DefaultShepherd shepherd_opt) s d) as Hsettles by done.
  destruct (Reconcile_faithful shepherd_opt st [] Hstore Hsettles
              rd ra ru stored_seq a u dl Hrd Hra Hru Hperm)
    as (t & r1 & Hrun & _ & _ & Hst1).
  destruct (Reconcile_success_counts _ _ _ _ _ _ _ _ Hrd Hra Hru Hrun)
    as (HD & HA & n & Hn & HU & Hlen).
  simpl in HD, HA, Hn, HU, Hlen.
  rewrite keys_of_nil, (keys_of_store st) in * by done.
  replace (dom st ∖ ∅) with (dom st) in * by set_solver.
  replace (∅ ∖ dom st) with (∅ : gset string) in * by set_solver.
  replace (dom st ∩ ∅) with (∅ : gset string) in * by set_solver.
  rewrite size_empty, size_dom in *.
  exists t, r1. split_and!; [done|..|done|done|].
  - apply map_eq. intros k. rewrite Hst1, lookup_empty. by destruct (st !! k).
  - lia.
  - rewrite HU. by apply iter_incr_0.
Qed.

Lemma Reconcile_empty_desired_witness :
  ∃ t r1,
    Collection_Reconcile MemTx map_to_list map_to_list map_to_list []
      (mkCollection (stored_of store3) store3 None 0 0 0) = (t, r1, Some None) ∧
    Tx r1 = ∅ ∧ length t = size store3 ∧
    Deleted r1 = Nat.iter (size store3) incr 0%Z ∧ Added r1 = 0%Z ∧ Updated r1 = 0%Z.
Proof.
  apply (Reconcile_empty_desired None store3 (stored_of store3)
           map_to_list map_to_list map_to_list 0 0 0).
  - intros mp. reflexivity.
  - intros mp. reflexivity.
  - intros mp. reflexivity.
  - unfold store_ok. apply (bool_decide_unpack _). vm_compute. exact I.
  - reflexivity.
Defined.

(** X17.  Reconciling an empty faithful store fills it: [Reconcile]
    returns no error, makes one call per desired key, leaves under each
    key the last desired record of that key, has incremented [Added]
    once per desired key and has left [Updated] and [Deleted] as they
    were; the shepherd is not consulted. *)
Theorem Reconcile_empty_store (shepherd_opt : option Shepherd)
    (desired_seq : list Model) (rd ra ru : Range) (a u dl : Z) :
  Range_ok rd → Range_ok ra → Range_ok ru →
  ∃ t r1,
    Collection_Reconcile MemTx rd ra ru desired_seq
      (mkCollection [] ∅ shepherd_opt a u dl) = (t, r1, Some None) ∧
    (∀ k, Tx r1 !! k = last_with_Pk k desired_seq) ∧
    length t = size (keys_of desired_seq) ∧
    Added r1 = Nat.iter (size (keys_of desired_seq)) incr a ∧
    Updated r1 = u ∧ Deleted r1 = dl.
Proof.
  intros Hrd Hra Hru.
  assert (store_ok (∅ : gmap string Model)) as Hstore by apply map_Forall_empty.
  assert (∀ k s d, (∅ : gmap string Model) !! k = Some s →
            last_with_Pk k desired_seq = Some d →
            settles (default DefaultShepherd shepherd_opt) s d) as Hsettles.
  { intros k s d Hs. by rewrite lookup_empty in Hs. }
  assert ([] ≡ₚ stored_of (∅ : gmap string Model)) as Hperm.
  { unfold stored_of. by rewrite map_to_list_empty. }
  destruct (Reconcile_faithful shepherd_opt ∅ desired_seq Hstore Hsettles
              rd ra ru [] a u dl Hrd Hra Hru Hperm)
    as (t & r1 & Hrun & _ & _ & Hst1).
  destruct (Reconcile_success_counts _ _ _ _ _ _ _ _ Hrd Hra Hru Hrun)
    as (HD & HA & n & Hn & HU & Hlen).
  simpl in HD, HA, Hn, HU, Hlen. rewrite keys_of_nil in *.
  replace (keys_of desired_seq ∖ ∅) with (keys_of desired_seq) in * by set_solver.
  replace (∅ ∖ keys_of desired_seq) with (∅ : gset string) in * by set_solver.
  replace (∅ ∩ keys_of desired_seq) with (∅ : gset string) in * by set_solver.
  rewrite size_empty in *.
  exists t, r1. split_and!; [done|..|done| |done].
  - intros k. rewrite Hst1, lookup_empty. by destruct (last_with_Pk k desired_seq).
  - lia.
  - rewrite HU. by apply iter_incr_0.
Qed.

Lemma Reconcile_empty_store_witness :
  ∃ t r1,
    Collection_Reconcile MemTx map_to_list map_to_list map_to_list desired3
      (mkCollection [] ∅ None 0 0 0) = (t, r1, Some None) ∧
    (∀ k, Tx r1 !! k = last_with_Pk k desired3) ∧
    length t = size (keys_of desired3) ∧
    Added r1 = Nat.iter (size (keys_of desired3)) incr 0%Z ∧
    Updated r1 = 0%Z ∧ Deleted r1 = 0%Z.
Proof.
  apply (Reconcile_empty_store None desired3 map_to_list map_to_list map_to_list 0 0 0).
  - intros mp. reflexivity.
  - intros mp. reflexivity.
  - intros mp. reflexivity.
Defined.

(** X18.  A panic of the shepherd comes late.  When [Reconcile] panics,
    the delete phase and the add phase have run to their end without
    error: every stored key that is not desired has had its delete
    call, every desired key that is not stored its insert call, and
    [Deleted] and [Added] count them; the calls that follow are the
    updates that succeeded before the panic, which [Updated] counts. *)
Theorem Reconcile_panics_after_deletes_and_adds {St : Type} (tx : TxOps St)
    (rd ra ru : Range) (desired_seq : list Model) (r r' : Collection St) (t : list TxCall) :
  Range_ok rd → Range_ok ra →
  Collection_Reconcile tx rd ra ru desired_seq r = (t, r', None) →
  ∃ td ta tu,
    t = td ++ ta ++ tu ∧
    Forall (λ c, is_call_of PhaseDelete c = true) td ∧
    length td = size (keys_of (Stored r) ∖ keys_of desired_seq) ∧
    Forall (λ c, is_call_of PhaseAdd c = true) ta ∧
    length ta = size (keys_of desired_seq ∖ keys_of (Stored r)) ∧
    Forall (λ c, is_call_of PhaseUpdate c = true) tu ∧
    Deleted r' = Nat.iter (length td) incr (Deleted r) ∧
    Added r' = Nat.iter (length ta) incr (Added r) ∧
    Updated r' = Nat.iter (length tu) incr (Updated r).
Proof.
  intros Hrd Hra. rewrite Reconcile_unfold.
  destruct (phase_loop tx _ PhaseDelete _ (drained r)) as [[td r1] od] eqn:Hd.
  destruct (phase_loop_no_panic tx _ PhaseDelete _ _ _ _ _ ltac:(done) Hd) as [ed ->].
  destruct ed as [e|]; [done|].
  destruct (phase_loop tx _ PhaseAdd _ r1) as [[ta r2] oa] eqn:Ha.
  destruct (phase_loop_no_panic tx _ PhaseAdd _ _ _ _ _ ltac:(done) Ha) as [ea ->].
  destruct ea as [e|]; [done|].
  destruct (phase_loop tx _ PhaseUpdate _ r2) as [[tu r3] ou] eqn:Hu.
  intros [= <- <- ->].
  destruct (phase_loop_report _ _ _ _ _ _ _ _ Hd) as (HFd & _).
  destruct (phase_loop_report _ _ _ _ _ _ _ _ Ha) as (HFa & _).
  destruct (phase_loop_success_report _ _ _ _ _ _ _ Hd) as (Htd & _ & _ & Hcd & Hqd).
  destruct (phase_loop_success_report _ _ _ _ _ _ _ Ha) as (Hta & _ & _ & Hca & Hqa).
  destruct (phase_loop_report _ _ _ _ _ _ _ _ Hu) as (HFu & _ & _ & Hqu & _ & Hcu).
  simpl in Hcd, Hca, Hcu.
  assert (Deleted r3 = Deleted r1) as HD.
  { transitivity (Deleted r2); [apply (Hqu PhaseDelete) | apply (Hqa PhaseDelete)]; done. }
  assert (Added r3 = Added r2) as HA by by apply (Hqu PhaseAdd).
  assert (Added r1 = Added r) as HA' by by apply (Hqd PhaseAdd).
  assert (Updated r2 = Updated r) as HU.
  { transitivity (Updated r1); [apply (Hqa PhaseUpdate) | apply (Hqd PhaseUpdate)]; done. }
  exists td, ta, tu. split_and!; try done.
  - rewrite Htd. by apply planned_delete_length.
  - rewrite Hta. by apply planned_add_length.
  - by rewrite HD, Hcd.
  - by rewrite HA, Hca, HA'.
  - by rewrite Hcu, HU.
Qed.

Lemma Reconcile_panics_after_deletes_and_adds_witness :
  ∃ td ta tu,
    [TxDelete (rec1 "1" 10)] = td ++ ta ++ tu ∧
    Forall (λ c, is_call_of PhaseDelete c = true) td ∧
    length td = size (keys_of [rec1 "1" 10; short_rec] ∖ keys_of [long_rec]) ∧
    Forall (λ c, is_call_of PhaseAdd c = true) ta ∧
    length ta = size (keys_of [long_rec] ∖ keys_of [rec1 "1" 10; short_rec]) ∧
    Forall (λ c, is_call_of PhaseUpdate c = true) tu ∧
    1%Z = Nat.iter (length td) incr 0%Z ∧
    0%Z = Nat.iter (length ta) incr 0%Z ∧
    0%Z = Nat.iter (length tu) incr 0%Z.
Proof.
  apply (Reconcile_panics_after_deletes_and_adds QuotaTx map_to_list map_to_list map_to_list
           [long_rec] (mkCollection [rec1 "1" 10; short_rec] 5 None 0 0 0)
           (mkCollection [] 4 None 0 0 1) [TxDelete (rec1 "1" 10)]).
  - intros mp. reflexivity.
  - intros mp. reflexivity.
  - reflexivity.
Defined.
